(** * discord.js client reconciliation: ClientUser, READY and settings actions

    A shallow embedding of
      - [src/structures/ClientUser.js] ([_patch], [acceptInvite], [edit], the
        constructor),
      - [src/client/actions/UserSettingsUpdate.js] ([handle]),
      - the READY packet handler of the websocket layer,
    together with the properties the specification states about them. *)

From stdpp Require Import gmap strings list fin_maps pretty.

Open Scope string_scope.
Open Scope list_scope.

(** ** JavaScript values *)

Module JS.

#[local] Set Warnings "-register-all".

(** The values that travel through the modelled code: JSON data plus
    [undefined].  Numbers are kept as integers (no payload inspected here
    depends on a fractional part).  An array carries its elements and the named
    properties that were assigned on it. *)
Inductive value : Type :=
  | VUndef
  | VNull
  | VBool (b : bool)
  | VNum (z : Z)
  | VStr (s : string)
  | VArr (elems : list value) (props : gmap string value)
  | VObj (fields : gmap string value).

(** A plain object, as produced by decoding a JSON object. *)
Abbreviation obj := (gmap string value).

(** [typeof v] *)
Definition typeof (v : value) : string :=
  match v with
  | VUndef => "undefined"
  | VNull => "object"
  | VBool _ => "boolean"
  | VNum _ => "number"
  | VStr _ => "string"
  | VArr _ _ => "object"
  | VObj _ => "object"
  end.

(** ToBoolean: the test performed by [if (v)], [v ? a : b]. *)
Definition truthy (v : value) : bool :=
  match v with
  | VUndef | VNull => false
  | VBool b => b
  | VNum z => negb (Z.eqb z 0)
  | VStr s => negb (String.eqb s "")
  | VArr _ _ | VObj _ => true
  end.

(** [k in o] for a plain object [o] and a key that [Object.prototype] does not
    define. *)
Definition has (k : string) (o : obj) : bool := bool_decide (is_Some (o !! k)).

(** [o.k] for a plain object [o]: [undefined] when the key is missing. *)
Definition field (k : string) (o : obj) : value := default VUndef (o !! k).

(** [v.k] for an arbitrary value and a key that no built-in prototype defines
    ([id], [token], [shardID], ...).  [None] is the TypeError raised on
    [undefined] and [null]. *)
Definition get_prop (v : value) (k : string) : option value :=
  match v with
  | VUndef | VNull => None
  | VBool _ | VNum _ | VStr _ => Some VUndef
  | VArr _ ps => Some (field k ps)
  | VObj fs => Some (field k fs)
  end.

(** [v.k = x] in strict mode: a TypeError ([None]) on every primitive. *)
Definition set_prop (v : value) (k : string) (x : value) : option value :=
  match v with
  | VArr es ps => Some (VArr es (<[k := x]> ps))
  | VObj fs => Some (VObj (<[k := x]> fs))
  | _ => None
  end.

(** [a === b].  Two objects are strictly equal only when they are the same
    reference; the operands compared in this development are decoded from
    separate messages, so object operands are never the same reference. *)
Definition strict_eq (a b : value) : bool :=
  match a, b with
  | VUndef, VUndef => true
  | VNull, VNull => true
  | VBool x, VBool y => Bool.eqb x y
  | VNum x, VNum y => Z.eqb x y
  | VStr x, VStr y => String.eqb x y
  | _, _ => false
  end.

(** [new Error(msg)]: the object and its own [message] property. *)
Definition Error (msg : string) : value := VObj {[ "message" := VStr msg ]}.

(** The overlay of two payloads, as [Object.assign({}, p1, p2)] builds it: the
    keys of both, [p2] winning on overlap. *)
Definition combine (p1 p2 : obj) : obj := p2 ∪ p1.

End JS.

(** ** The logged-in user: [structures/ClientUser.js] *)

Module ClientUser.
Import JS.

Section Structure.

(** [ClientUser extends Structures.get('User')].  The superclass and
    [ClientUserSettings] live outside this file: the inherited part of the
    object is a value of type [Base], the settings object a value of type
    [Settings]. *)
Context {Base Settings : Type}.

(** The instance: the inherited part, then the properties this class
    assigns.  A property that was never assigned reads [undefined]. *)
Record t : Type := mk {
  base : Base;
  _typing : obj;
  settings : option Settings;
  verified : value;
  mfaEnabled : value;
  email : value;
  premium : value
}.

Definition set_base (b : Base) (u : t) : t :=
  mk b (_typing u) (settings u) (verified u) (mfaEnabled u) (email u) (premium u).
Definition set_typing (m : obj) (u : t) : t :=
  mk (base u) m (settings u) (verified u) (mfaEnabled u) (email u) (premium u).
Definition set_settings (s : option Settings) (u : t) : t :=
  mk (base u) (_typing u) s (verified u) (mfaEnabled u) (email u) (premium u).
Definition set_verified (v : value) (u : t) : t :=
  mk (base u) (_typing u) (settings u) v (mfaEnabled u) (email u) (premium u).
Definition set_mfaEnabled (v : value) (u : t) : t :=
  mk (base u) (_typing u) (settings u) (verified u) v (email u) (premium u).
Definition set_email (v : value) (u : t) : t :=
  mk (base u) (_typing u) (settings u) (verified u) (mfaEnabled u) v (premium u).
Definition set_premium (v : value) (u : t) : t :=
  mk (base u) (_typing u) (settings u) (verified u) (mfaEnabled u) (email u) v.

(** [typeof v === 'boolean' ? v : null] and its string sibling. *)
Definition boolean_or_null (v : value) : value :=
  if String.eqb (typeof v) "boolean" then v else VNull.
Definition string_or_null (v : value) : value :=
  if String.eqb (typeof v) "string" then v else VNull.

(** [User.prototype._patch], reached through [super._patch(data)]: it works
    on the inherited part of the object. *)
Variable User_patch : obj -> Base -> Base.

(** [_patch(data)].  The method writes to [this] and to [this.client.token];
    the state it acts on is the pair of the two. *)
Definition _patch (data : obj) (s : t * value) : t * value :=
  let this := set_base (User_patch data (base s.1)) s.1 in
  let this :=
    if has "verified" data then set_verified (field "verified" data) this
    else this in
  let this :=
    if has "mfa_enabled" data
    then set_mfaEnabled (boolean_or_null (field "mfa_enabled" data)) this
    else if String.eqb (typeof (mfaEnabled this)) "undefined"
    then set_mfaEnabled VNull this
    else this in
  let this :=
    if has "email" data then set_email (string_or_null (field "email" data)) this
    else this in
  let this :=
    if has "premium" data
    then set_premium (boolean_or_null (field "premium" data)) this
    else this in
  let token := if truthy (field "token" data) then field "token" data else s.2 in
  (this, token).

(** The properties of the object that [_patch] itself assigns. *)
Definition own (u : t) : value * value * value * value :=
  (verified u, mfaEnabled u, email u, premium u).

(** The superclass constructor, reached through [super(client, data.user)]:
    the object and the client credential as it leaves them (it is free to
    run the overriding [_patch]); [None] when it throws. *)
Variable User_new : value -> value -> option (t * value).

(** [new ClientUserSettings(this, data.user_settings)] *)
Variable ClientUserSettings_new : value -> Settings.

(** [constructor(client, data)], with [token] the credential of [client]. *)
Definition new (data : obj) (token : value) : option (t * value) :=
  match User_new (field "user" data) token with
  | None => None
  | Some (this, token) =>
      let this := set_typing ∅ this in
      let this :=
        set_settings
          (if truthy (field "user_settings" data)
           then Some (ClientUserSettings_new (field "user_settings" data))
           else None)
          this in
      Some (this, token)
  end.

(** The client as far as the modelled code reaches into it.  Objects of
    this class live in [heap] and are named by their address, so that
    [client.user] and the entry of [client.users.cache] share one object.
    [calls] lists, oldest first, the calls made on collaborators that are
    not modelled further; [emitted] is what [client.emit] was given. *)
Inductive call : Type :=
  | GuildsAdd (guild : value)
  | ChannelsAdd (channel : value)
  | CheckReady (shard_id : value).

Record client : Type := Client {
  user : option nat;
  heap : gmap nat t;
  token : value;
  users_cache : list (value * nat);
  calls : list call;
  emitted : list (string * value)
}.

Definition set_user (r : option nat) (c : client) : client :=
  Client r (heap c) (token c) (users_cache c) (calls c) (emitted c).
Definition set_heap (h : gmap nat t) (c : client) : client :=
  Client (user c) h (token c) (users_cache c) (calls c) (emitted c).
Definition set_token (v : value) (c : client) : client :=
  Client (user c) (heap c) v (users_cache c) (calls c) (emitted c).
Definition set_users_cache (m : list (value * nat)) (c : client) : client :=
  Client (user c) (heap c) (token c) m (calls c) (emitted c).
Definition set_calls (l : list call) (c : client) : client :=
  Client (user c) (heap c) (token c) (users_cache c) l (emitted c).
Definition set_emitted (l : list (string * value)) (c : client) : client :=
  Client (user c) (heap c) (token c) (users_cache c) (calls c) l.

Definition log (x : call) (c : client) : client := set_calls (calls c ++ [x]) c.

(** A statement either completes or throws; what it changed before throwing
    stays changed. *)
Inductive completion (A : Type) : Type :=
  | Normal (a : A) (c : client)
  | Throw (c : client).
Arguments Normal {A} a c.
Arguments Throw {A} c.

Definition state_of {A} (r : completion A) : client :=
  match r with Normal _ c => c | Throw c => c end.

(** [u._patch(data)] for the object at address [r]. *)
Definition patch_at (r : nat) (data : obj) (c : client) : completion unit :=
  match heap c !! r with
  | None => Throw c
  | Some u =>
      let (u', tok) := _patch data (u, token c) in
      Normal tt (set_token tok (set_heap (<[r := u']> (heap c)) c))
  end.

(** [const { updated } = this.client.actions.UserUpdate.handle(newData)]: the
    [updated] member of the result ([None] for a falsy one) and the client the
    call leaves; [Throw] when the call, or taking [updated] out of its result,
    throws. *)
Variable UserUpdate_handle : value -> client -> completion (option nat).

(** The [then] callback of [edit], run on the object at address [this] with
    the response [newData]. *)
Definition edit_then (this : nat) (newData : value) (c : client) : completion nat :=
  match get_prop newData "token" with
  | None => Throw c
  | Some tok =>
      let c := set_token tok c in
      match UserUpdate_handle newData c with
      | Throw c => Throw c
      | Normal (Some r) c => Normal r c
      | Normal None c => Normal this c
      end
  end.

(** [edit(data)], given how the request ends: [inl newData] when it
    succeeds, [inr err] when it fails (the promise then rejects and the
    callback does not run). *)
Definition edit (this : nat) (response : value + value) (c : client) : completion nat :=
  match response with
  | inl newData => edit_then this newData c
  | inr _ => Throw c
  end.

End Structure.

Arguments t : clear implicits.
Arguments client : clear implicits.
Arguments completion : clear implicits.
Arguments Normal {Base Settings A} a c.
Arguments Throw {Base Settings A} c.

(** *** [acceptInvite]: a request correlated with a later gateway event *)

(** State of the promise returned by [acceptInvite]. *)
Inductive settled : Type :=
  | Pending
  | Resolved (guild : value)
  | Rejected (reason : value).

(** The functions registered on the client for [Events.GUILD_CREATE]: the
    [handler] closure of [acceptInvite] (it captures [res]) and the listeners
    the rest of the application registered, which do not touch the promise. *)
Inductive listener : Type :=
  | InviteHandler (res : value)
  | Foreign (tag : nat).

Definition is_handler (l : listener) : bool :=
  match l with InviteHandler _ => true | Foreign _ => false end.

(** What one call of [acceptInvite] can reach: its promise, the listeners of
    the client, the timers of the client (deadline in milliseconds and the
    [res] captured by the callback) and the clock.  [issued] is the code
    handed to [api.invite], [in_flight] tells whether that request is still
    unanswered, [removals] counts the calls of [removeListener] made by the
    closures of this call. *)
Record world : Type := World {
  issued : value;
  in_flight : bool;
  promise : settled;
  listeners : list listener;
  timers : list (N * value);
  clock : N;
  removals : nat
}.

Definition set_in_flight (b : bool) (w : world) : world :=
  World (issued w) b (promise w) (listeners w) (timers w) (clock w) (removals w).
Definition set_promise (p : settled) (w : world) : world :=
  World (issued w) (in_flight w) p (listeners w) (timers w) (clock w) (removals w).
Definition set_listeners (ls : list listener) (w : world) : world :=
  World (issued w) (in_flight w) (promise w) ls (timers w) (clock w) (removals w).
Definition set_timers (ts : list (N * value)) (w : world) : world :=
  World (issued w) (in_flight w) (promise w) (listeners w) ts (clock w) (removals w).
Definition set_clock (t : N) (w : world) : world :=
  World (issued w) (in_flight w) (promise w) (listeners w) (timers w) t (removals w).
Definition set_removals (n : nat) (w : world) : world :=
  World (issued w) (in_flight w) (promise w) (listeners w) (timers w) (clock w) n.

(** [resolve(v)] and [reject(e)]: a promise settles once, later calls are
    ignored. *)
Definition resolve (v : value) (w : world) : world :=
  match promise w with Pending => set_promise (Resolved v) w | _ => w end.
Definition reject (e : value) (w : world) : world :=
  match promise w with Pending => set_promise (Rejected e) w | _ => w end.

(** [EventEmitter.prototype.removeListener]: the most recently added
    registration of the function goes, nothing happens when there is none.
    The call creates a single [handler] closure, so any [InviteHandler] on the
    list is that function. *)
Fixpoint remove_last (ls : list listener) : list listener :=
  match ls with
  | [] => []
  | l :: ls' =>
      if is_handler l && negb (existsb is_handler ls') then ls'
      else l :: remove_last ls'
  end.

Definition removeListener (w : world) : world :=
  set_removals (S (removals w)) (set_listeners (remove_last (listeners w)) w).

(** [client.on(Events.GUILD_CREATE, handler)] *)
Definition on (l : listener) (w : world) : world :=
  set_listeners (listeners w ++ [l]) w.

(** [client.setTimeout(fn, delay)] *)
Definition setTimeout (res : value) (delay : N) (w : world) : world :=
  set_timers (timers w ++ [((clock w + delay)%N, res)]) w.

(** The test [guild.id === res.id]; [None] when reading [id] throws. *)
Definition id_matches (res guild : value) : option bool :=
  match get_prop guild "id", get_prop res "id" with
  | Some a, Some b => Some (strict_eq a b)
  | _, _ => None
  end.

(** [handler(guild)] *)
Definition handler (res guild : value) (w : world) : world :=
  match id_matches res guild with
  | Some true => removeListener (resolve guild w)
  | Some false => w
  | None => w
  end.

(** The callback given to [client.setTimeout]. *)
Definition on_timeout (w : world) : world :=
  reject (Error "Accepting invite timed out") (removeListener w).

(** The [then] callback. *)
Definition on_response (res : value) (w : world) : world :=
  setTimeout res 120000 (on (InviteHandler res) w).

(** The [catch] callback. *)
Definition on_failure (w : world) : world :=
  reject (Error "Invite code is not valid") w.

(** [client.emit(Events.GUILD_CREATE, guild)]: the functions registered when
    the event is emitted are called in registration order. *)
Definition call_listener (guild : value) (w : world) (l : listener) : world :=
  match l with
  | InviteHandler res => handler res guild w
  | Foreign _ => w
  end.

Definition emit (guild : value) (w : world) : world :=
  fold_left (call_listener guild) (listeners w) w.

(** Timers whose deadline has been reached run, oldest first, and are
    dropped. *)
Definition due (now : N) (t : N * value) : bool := (t.1 <=? now)%N.

Definition run_timers (w : world) : world :=
  let fired := filter (fun t => due (clock w) t = true) (timers w) in
  let kept := filter (fun t => due (clock w) t = false) (timers w) in
  fold_left (fun w _ => on_timeout w) fired (set_timers kept w).

(** What the environment does to a pending call: the request is answered or
    fails, the gateway announces a guild, time passes. *)
Inductive input : Type :=
  | Respond (res : value)
  | Fail (err : value)
  | GuildCreate (guild : value)
  | Elapse (ms : N).

Definition step (w : world) (i : input) : world :=
  match i with
  | Respond res => if in_flight w then on_response res (set_in_flight false w) else w
  | Fail _ => if in_flight w then on_failure (set_in_flight false w) else w
  | GuildCreate guild => emit guild w
  | Elapse ms => run_timers (set_clock (clock w + ms)%N w)
  end.

Definition run (tr : list input) (w : world) : world := fold_left step tr w.

(** [acceptInvite(code)] on a client whose [GUILD_CREATE] listeners are [ls],
    at time [now]: the world in which the request has just been issued.
    [None] when reading [code.id] throws. *)
Definition acceptInvite (code : value) (ls : list listener) (now : N) : option world :=
  match get_prop code "id" with
  | None => None
  | Some id =>
      let code := if truthy id then id else code in
      Some (World code true Pending ls [] now 0)
  end.

(** *** The life of one call, as a finite automaton

    The worlds a call goes through fall into six shapes.  [phase] names them,
    [in_phase] gives the world of a phase and [phase_step] replays [step] on
    phases; that the two agree is proved below. *)
Inductive phase : Type :=
  | Requesting
  | Failed
  | Waiting (res : value) (deadline : N)
  | Matched (res : value) (deadline : N) (guild : value)
  | MatchedExpired (guild : value)
  | TimedOut.

Definition in_phase (code : value) (ls : list listener) (p : phase * N) : world :=
  let now := p.2 in
  match p.1 with
  | Requesting => World code true Pending ls [] now 0
  | Failed => World code false (Rejected (Error "Invite code is not valid")) ls [] now 0
  | Waiting res d => World code false Pending (ls ++ [InviteHandler res]) [(d, res)] now 0
  | Matched res d g => World code false (Resolved g) ls [(d, res)] now 1
  | MatchedExpired g => World code false (Resolved g) ls [] now 2
  | TimedOut => World code false (Rejected (Error "Accepting invite timed out")) ls [] now 1
  end.

(** [guild] is the event the handler of [res] is waiting for. *)
Definition matches (res guild : value) : bool :=
  match id_matches res guild with Some true => true | _ => false end.

Definition phase_step (p : phase * N) (i : input) : phase * N :=
  let now := p.2 in
  match i with
  | Respond res =>
      (match p.1 with Requesting => Waiting res (now + 120000)%N | ph => ph end, now)
  | Fail _ =>
      (match p.1 with Requesting => Failed | ph => ph end, now)
  | GuildCreate g =>
      (match p.1 with
       | Waiting res d => if matches res g then Matched res d g else Waiting res d
       | ph => ph
       end, now)
  | Elapse ms =>
      let now := (now + ms)%N in
      (match p.1 with
       | Waiting res d => if (d <=? now)%N then TimedOut else Waiting res d
       | Matched res d g => if (d <=? now)%N then MatchedExpired g else Matched res d g
       | ph => ph
       end, now)
  end.

Definition phase_run (tr : list input) (p : phase * N) : phase * N :=
  fold_left phase_step tr p.

(** Inputs that may precede the answer of the request, inputs that leave a
    call waiting on [res] waiting, and the time a trace takes. *)
Definition ambient (i : input) : bool :=
  match i with GuildCreate _ | Elapse _ => true | Respond _ | Fail _ => false end.

Definition quiet (res : value) (i : input) : bool :=
  match i with GuildCreate g => negb (matches res g) | _ => true end.

Fixpoint elapsed (tr : list input) : N :=
  match tr with
  | [] => 0
  | Elapse ms :: tr' => ms + elapsed tr'
  | _ :: tr' => elapsed tr'
  end.

End ClientUser.

(** ** [client/actions/UserSettingsUpdate.js] *)

Module UserSettingsUpdateAction.
Import JS.
Import ClientUser.

Section Action.

Context {Base Settings : Type}.

(** [Events.USER_SETTINGS_UPDATE], a constant of [util/Constants]. *)
Variable USER_SETTINGS_UPDATE : string.

(** [handle(settings)]: the returned object and the client. *)
Definition handle (settings : value) (c : client Base Settings)
  : value * client Base Settings :=
  let c := set_emitted (emitted c ++ [(USER_SETTINGS_UPDATE, settings)]) c in
  (VObj {[ "settings" := settings ]}, c).

(** The handler run on a sequence of dispatched events, in order; the
    results are collected in the same order. *)
Fixpoint handle_all (events : list value) (c : client Base Settings)
  : list value * client Base Settings :=
  match events with
  | [] => ([], c)
  | settings :: rest =>
      let (r, c) := handle settings c in
      let (rs, c) := handle_all rest c in
      (r :: rs, c)
  end.

End Action.

End UserSettingsUpdateAction.

(** ** The READY packet handler *)

Module Ready.
Import JS.
Import ClientUser.

Section Handler.

Context {Base Settings : Type}.
Variable User_patch : obj -> Base -> Base.
Variable User_new : value -> value -> option (t Base Settings * value).
Variable ClientUserSettings_new : value -> Settings.

(** [clientUser.id], a property of the inherited part. *)
Variable User_id : Base -> value.

Abbreviation client := (ClientUser.client Base Settings).
Abbreviation completion := (ClientUser.completion Base Settings).

(** [Map.prototype.set]: an existing key keeps its position. *)
Fixpoint Map_set (k : value) (r : nat) (m : list (value * nat)) : list (value * nat) :=
  match m with
  | [] => [(k, r)]
  | (k', r') :: m' =>
      if strict_eq k' k then (k', r) :: m' else (k', r') :: Map_set k r m'
  end.

(** The values a [for ... of] loop visits; [None] when the value is not
    iterable.  A string is visited character by character. *)
Definition iterate (v : value) : option (list value) :=
  match v with
  | VArr es _ => Some es
  | VStr s => Some ((fun a => VStr (String a EmptyString)) <$> String.list_ascii_of_string s)
  | _ => None
  end.

(** The first branch: patch the user, or build and cache it. *)
Definition ready_user (data : obj) (c : client) : completion unit :=
  match user c with
  | Some r => patch_at User_patch r data c
  | None =>
      match new User_new ClientUserSettings_new data (token c) with
      | None => Throw c
      | Some (clientUser, tok) =>
          let r := fresh (dom (heap c)) in
          let c := set_token tok (set_heap (<[r := clientUser]> (heap c)) c) in
          let c := set_user (Some r) c in
          Normal tt (set_users_cache (Map_set (User_id (base clientUser)) r (users_cache c)) c)
      end
  end.

(** The body of the first loop, then the loop. *)
Definition add_guild (shard_id guild : value) (c : client) : completion unit :=
  match set_prop guild "shardID" shard_id with
  | None => Throw c
  | Some guild => Normal tt (log (GuildsAdd guild) c)
  end.

Fixpoint add_guilds (shard_id : value) (guilds : list value) (c : client) : completion unit :=
  match guilds with
  | [] => Normal tt c
  | guild :: rest =>
      match add_guild shard_id guild c with
      | Normal _ c => add_guilds shard_id rest c
      | Throw c => Throw c
      end
  end.

(** The second loop. *)
Definition add_channels (channels : list value) (c : client) : client :=
  fold_left (fun c privateDM => log (ChannelsAdd privateDM) c) channels c.

(** The guild as [client.guilds.add] receives it, and the calls one packet
    makes on the collaborators, in order. *)
Definition tagged (shard_id guild : value) : value :=
  default guild (set_prop guild "shardID" shard_id).

Definition ready_calls (shard_id : value) (guilds channels : list value) : list call :=
  (GuildsAdd ∘ tagged shard_id <$> guilds) ++ (ChannelsAdd <$> channels)
  ++ [CheckReady shard_id].

(** [module.exports = (client, { d: data }, shard) => ...], with [shard_id]
    the value of [shard.id]. *)
Definition READY (data : obj) (shard_id : value) (c : client) : completion unit :=
  match ready_user data c with
  | Throw c => Throw c
  | Normal _ c =>
      match iterate (field "guilds" data) with
      | None => Throw c
      | Some guilds =>
          match add_guilds shard_id guilds c with
          | Throw c => Throw c
          | Normal _ c =>
              match iterate (field "private_channels" data) with
              | None => Throw c
              | Some channels =>
                  Normal tt (log (CheckReady shard_id) (add_channels channels c))
              end
          end
      end
  end.

End Handler.

End Ready.

(** ** Concrete instances

    A small superclass used to run the definitions on explicit inputs: the
    inherited part is a plain object on which [User_patch] copies the
    [username] of the payload; its constructor records the [id] and ends, as
    a constructor calling [this._patch(data)] does, in the overriding
    [_patch]. *)

Module Sample.
Import JS.
Import ClientUser.

Definition User_patch (data : obj) (b : obj) : obj :=
  if has "username" data then <[ "username" := field "username" data ]> b else b.

Definition User_new (data : value) (token : value) : option (t obj unit * value) :=
  match data with
  | VObj fs =>
      Some (_patch User_patch fs
              (mk (<[ "id" := field "id" fs ]> ∅) ∅ None VUndef VUndef VUndef VUndef,
               token))
  | _ => None
  end.

Definition ClientUserSettings_new (_ : value) : unit := tt.

Definition User_id (b : obj) : value := field "id" b.

(** A freshly allocated object, before any property of this class is set. *)
Definition fresh_user : t obj unit :=
  mk ∅ ∅ None VUndef VUndef VUndef VUndef.

(** An object that went through a first full payload. *)
Definition known_user : t obj unit :=
  mk {[ "username" := VStr "hydrabolt" ]} ∅ None
     (VBool true) (VBool false) (VStr "a@b.c") VNull.

(** A [UserUpdateAction.handle] that patches the payload into [client.user]
    and reports that object as updated; it throws when there is no such
    object to patch. *)
Definition UserUpdate_handle (d : value) (c : client obj unit)
  : completion obj unit (option nat) :=
  match d, user c with
  | VObj fs, Some r =>
      match patch_at User_patch r fs c with
      | Normal _ c => Normal (Some r) c
      | Throw c => Throw c
      end
  | _, _ => Throw c
  end.

Definition empty_client : client obj unit := Client None ∅ VUndef [] [] [].

Definition logged_in : client obj unit :=
  Client (Some 0) {[ 0 := known_user ]} (VStr "old-token") [(VStr "42", 0)] [] [].

(** An invite answer, the guild it announces and an unrelated guild. *)
Definition invite_res : value :=
  VObj {[ "id" := VStr "81384788765712384"; "code" := VStr "abc" ]}.
Definition joined_guild : value :=
  VObj {[ "id" := VStr "81384788765712384"; "name" := VStr "Discord API" ]}.
Definition other_guild : value :=
  VObj {[ "id" := VStr "41771983423143937"; "name" := VStr "Discord Developers" ]}.

(** A world in which the request for the code [abc] has just been issued. *)
Definition fresh_call : world := World (VStr "abc") true Pending [Foreign 0] [] 0 0.

(** The object [User_new] builds from the user of [ready_packet] below. *)
Definition first_user : t obj unit :=
  mk {[ "id" := VStr "42"; "username" := VStr "hydrabolt" ]} ∅ None
     VUndef VNull VUndef VUndef.

(** A READY payload with two guilds and one private channel. *)
Definition ready_packet : obj :=
  {[ "user" := VObj {[ "id" := VStr "42"; "username" := VStr "hydrabolt" ]};
     "guilds" := VArr [joined_guild; other_guild] ∅;
     "private_channels" := VArr [VObj {[ "id" := VStr "7" ]}] ∅ ]}.

End Sample.

(** ** The remaining methods of [structures/ClientUser.js] *)

Module ClientUserMethods.
Import JS.
Import ClientUser.

(** The own enumerable properties of a value, as [Object.assign] reads them
    from a source: the fields of an object, the elements of an array under
    their indices together with its named properties, the characters of a
    string under their indices, nothing for the other primitives. *)
Definition indexed (l : list value) : obj :=
  list_to_map (imap (λ i x, (pretty i, x)) l).

Definition own_enumerable (v : value) : obj :=
  match v with
  | VObj fs => fs
  | VArr es ps => indexed es ∪ ps
  | VStr s => indexed ((λ a, VStr (String a EmptyString)) <$> String.list_ascii_of_string s)
  | VUndef | VNull | VBool _ | VNum _ => ∅
  end.

(** [Object.assign({}, a, b)] *)
Definition assign (a b : value) : obj := own_enumerable b ∪ own_enumerable a.

(** [v || null] *)
Definition or_null (v : value) : value := if truthy v then v else VNull.

(** [setPresence(data)] hands [data] to [client.presence.set].  The methods
    below are described by the argument that call receives; [None] when the
    method throws before making the call. *)
Definition setPresence (data : value) : option value := Some data.

(** [setStatus(status, shardID)] *)
Definition setStatus (status shardID : value) : option value :=
  setPresence (VObj {[ "status" := status; "shardID" := shardID ]}).

(** [setAFK(afk)] *)
Definition setAFK (afk : value) : option value :=
  setPresence (VObj {[ "afk" := afk ]}).

(** [setActivity(name, options = {})]; an omitted argument is [undefined]. *)
Definition setActivity (name options : value) : option value :=
  let options := match options with VUndef => VObj ∅ | _ => options end in
  if negb (truthy name) then
    match get_prop options "shardID" with
    | None => None
    | Some shardID => setPresence (VObj {[ "activity" := VNull; "shardID" := shardID ]})
    end
  else
    let activity :=
      assign options
        (if String.eqb (typeof name) "object" then name else VObj {[ "name" := name ]}) in
    setPresence (VObj {[ "activity" := VObj activity;
                         "shardID" := field "shardID" activity ]}).

(** The argument [setCustomStatus(data)] gives to [client.presence.set];
    [None] when reading a property of [data] throws. *)
Definition custom_status_presence (data : value) : option value :=
  match get_prop data "text", get_prop data "emoji_id", get_prop data "emoji_name" with
  | Some text, Some emoji_id, Some emoji_name =>
      Some (VObj {[ "activities" :=
        VArr [ VObj {[ "type" := VNum 4;
                       "state" := or_null text;
                       "name" := VStr "Custom Status";
                       "emoji" := VObj {[ "id" := or_null emoji_id;
                                          "name" := or_null emoji_name;
                                          "animated" := VBool false ]} ]} ] ∅ ]})
  | _, _, _ => None
  end.

(** Why a promise is rejected: a TypeError raised by the engine, or the value
    a collaborator rejected with. *)
Inductive reason : Type :=
  | TypeError
  | Because (err : value).

(** The calls [setCustomStatus] makes, in order. *)
Inductive effect : Type :=
  | PresenceSet (data : value)
  | SettingsUpdate (name : string) (data : value)
  | SettingsPatch (newSettings : value).

Section Settings.

Context {Base Settings : Type}.

(** [ClientUserSettings.prototype._patch] and the [customStatus] property of
    the settings object. *)
Variable Settings_patch : value -> Settings -> Settings.
Variable Settings_customStatus : Settings -> value.

(** [get customStatus()]; [None] when it throws. *)
Definition customStatus (this : t Base Settings) : option value :=
  match settings this with
  | None => None
  | Some s => Some (Settings_customStatus s)
  end.

(** [setCustomStatus(data)], given how the two awaited calls end ([inl] for a
    fulfilled promise, [inr] for a rejected one): the way the returned promise
    settles, the object afterwards and the calls made. *)
Definition setCustomStatus (this : t Base Settings) (data : value)
    (presence_set settings_update : value + value)
  : (value + reason) * t Base Settings * list effect :=
  match custom_status_presence data with
  | None => (inr TypeError, this, [])
  | Some p =>
      match presence_set with
      | inr err => (inr (Because err), this, [PresenceSet p])
      | inl _ =>
          match settings this with
          | None => (inr TypeError, this, [PresenceSet p])
          | Some s =>
              match settings_update with
              | inr err =>
                  (inr (Because err), this,
                   [PresenceSet p; SettingsUpdate "custom_status" data])
              | inl newSettings =>
                  (inl newSettings,
                   set_settings (Some (Settings_patch newSettings s)) this,
                   [PresenceSet p; SettingsUpdate "custom_status" data;
                    SettingsPatch newSettings])
              end
          end
      end
  end.

End Settings.

End ClientUserMethods.

(** ** More concrete instances *)

Module SampleSettings.
Import JS.
Import ClientUser.

(** A settings object reduced to its custom status. *)
Definition Settings_new (data : value) : value :=
  default VUndef (get_prop data "custom_status").

Definition Settings_patch (newSettings : value) (s : value) : value :=
  match get_prop newSettings "custom_status" with
  | Some v => if strict_eq v VUndef then s else v
  | None => s
  end.

Definition Settings_customStatus (s : value) : value := s.

Definition User_new (data : value) (token : value) : option (t obj value * value) :=
  match data with
  | VObj fs =>
      Some (_patch (λ _ b, b) fs
              (mk (<[ "id" := field "id" fs ]> ∅) ∅ None VUndef VUndef VUndef VUndef,
               token))
  | _ => None
  end.

(** A bot account: it has no settings. *)
Definition bot : t obj value := mk ∅ ∅ None (VBool true) VNull VNull VNull.

End SampleSettings.

(** * Properties *)

(** ** PatchMerge: [ClientUser._patch] *)

Module PatchMerge.
Import JS.
Import ClientUser.

Lemma has_true k (o : obj) v : o !! k = Some v → has k o = true.
Proof. intros H. unfold has. apply bool_decide_eq_true. eauto. Qed.

Lemma has_false k (o : obj) : o !! k = None → has k o = false.
Proof.
  intros H. unfold has. apply bool_decide_eq_false. rewrite H.
  intros [? ?]; discriminate.
Qed.

Lemma field_some k (o : obj) v : o !! k = Some v → field k o = v.
Proof. intros H. unfold field. by rewrite H. Qed.

Lemma field_none k (o : obj) : o !! k = None → field k o = VUndef.
Proof. intros H. unfold field. by rewrite H. Qed.

Lemma has_combine k (p1 p2 : obj) :
  has k (combine p1 p2) = has k p2 || has k p1.
Proof.
  unfold combine.
  destruct (p2 !! k) as [v2|] eqn:E2.
  - rewrite (has_true k p2 v2 E2). simpl.
    apply (has_true _ _ v2). by apply lookup_union_Some_l.
  - rewrite (has_false k p2 E2). simpl.
    unfold has. by rewrite lookup_union_r.
Qed.

Lemma field_combine k (p1 p2 : obj) :
  field k (combine p1 p2) = if has k p2 then field k p2 else field k p1.
Proof.
  unfold combine.
  destruct (p2 !! k) as [v2|] eqn:E2.
  - rewrite (has_true k p2 v2 E2), (field_some k p2 v2 E2).
    apply field_some. by apply lookup_union_Some_l.
  - rewrite (has_false k p2 E2).
    unfold field. by rewrite lookup_union_r.
Qed.

Lemma boolean_or_null_defined v :
  String.eqb (typeof (boolean_or_null v)) "undefined" = false.
Proof. by destruct v. Qed.

Section Projections.

Context {Base Settings : Type}.
Variable User_patch : obj -> Base -> Base.

Implicit Types (data : obj) (s : t Base Settings * value).

Lemma patch_base data s :
  base (_patch User_patch data s).1 = User_patch data (base s.1).
Proof. unfold _patch. by repeat case_match. Qed.

Lemma patch_typing data s : _typing (_patch User_patch data s).1 = _typing s.1.
Proof. unfold _patch. by repeat case_match. Qed.

Lemma patch_settings data s : settings (_patch User_patch data s).1 = settings s.1.
Proof. unfold _patch. by repeat case_match. Qed.

Lemma patch_verified data s :
  verified (_patch User_patch data s).1 =
  if has "verified" data then field "verified" data else verified s.1.
Proof. unfold _patch. by repeat case_match. Qed.

Lemma patch_mfaEnabled data s :
  mfaEnabled (_patch User_patch data s).1 =
  if has "mfa_enabled" data then boolean_or_null (field "mfa_enabled" data)
  else if typeof (mfaEnabled s.1) =? "undefined" then VNull
  else mfaEnabled s.1.
Proof.
  unfold _patch. destruct (has "verified" data); simpl; by repeat case_match.
Qed.

Lemma patch_email data s :
  email (_patch User_patch data s).1 =
  if has "email" data then string_or_null (field "email" data) else email s.1.
Proof. unfold _patch. by repeat case_match. Qed.

Lemma patch_premium data s :
  premium (_patch User_patch data s).1 =
  if has "premium" data then boolean_or_null (field "premium" data) else premium s.1.
Proof. unfold _patch. by repeat case_match. Qed.

Lemma patch_token data s :
  (_patch User_patch data s).2 =
  if truthy (field "token" data) then field "token" data else s.2.
Proof. reflexivity. Qed.

Lemma t_ext (u v : t Base Settings) :
  base u = base v → _typing u = _typing v → settings u = settings v →
  own u = own v → u = v.
Proof.
  destruct u, v; unfold own; simpl. intros -> -> -> [= -> -> -> ->]. reflexivity.
Qed.

(** C1 (as amended).  A key missing from the payload leaves [verified],
    [email] and [premium] as they were, and leaves [mfaEnabled] as it was
    unless it was still [undefined], in which case it becomes [null]; a key
    present with the value [null] makes each of the four properties [null]. *)
Theorem patch_absent_or_null data s :
  let u := s.1 in
  let u' := (_patch User_patch data s).1 in
  (data !! "verified" = None → verified u' = verified u) ∧
  (data !! "mfa_enabled" = None →
     (mfaEnabled u ≠ VUndef → mfaEnabled u' = mfaEnabled u) ∧
     (mfaEnabled u = VUndef → mfaEnabled u' = VNull)) ∧
  (data !! "email" = None → email u' = email u) ∧
  (data !! "premium" = None → premium u' = premium u) ∧
  (data !! "verified" = Some VNull → verified u' = VNull) ∧
  (data !! "mfa_enabled" = Some VNull → mfaEnabled u' = VNull) ∧
  (data !! "email" = Some VNull → email u' = VNull) ∧
  (data !! "premium" = Some VNull → premium u' = VNull).
Proof.
  cbv zeta.
  rewrite patch_verified, patch_mfaEnabled, patch_email, patch_premium.
  repeat split.
  - intros H. by rewrite (has_false _ _ H).
  - intros Hd. rewrite (has_false _ _ H). by destruct (mfaEnabled s.1).
  - intros Hu. rewrite (has_false _ _ H), Hu. reflexivity.
  - intros H. by rewrite (has_false _ _ H).
  - intros H. by rewrite (has_false _ _ H).
  - intros H. by rewrite (has_true _ _ _ H), (field_some _ _ _ H).
  - intros H. by rewrite (has_true _ _ _ H), (field_some _ _ _ H).
  - intros H. by rewrite (has_true _ _ _ H), (field_some _ _ _ H).
  - intros H. by rewrite (has_true _ _ _ H), (field_some _ _ _ H).
Qed.

(** C2 (as amended).  A present [mfa_enabled] sets [mfaEnabled] to the
    payload value when that value is a boolean and to [null] otherwise; a
    present [verified] sets [verified] to the payload value, of whatever
    type. *)
Theorem patch_flags data s v :
  let u' := (_patch User_patch data s).1 in
  (data !! "mfa_enabled" = Some v →
     mfaEnabled u' = match v with VBool _ => v | _ => VNull end) ∧
  (data !! "verified" = Some v → verified u' = v).
Proof.
  cbv zeta. rewrite patch_verified, patch_mfaEnabled. split; intros H.
  - rewrite (has_true _ _ _ H), (field_some _ _ _ H). by destruct v.
  - by rewrite (has_true _ _ _ H), (field_some _ _ _ H).
Qed.

(** C6 (as amended).  The credential becomes the payload's [token] exactly
    when that value is truthy and is left alone otherwise, in particular
    when the key is missing; the properties the method assigns on the object
    do not depend on the payload's [token]. *)
Theorem patch_token_effect data s :
  let tok' := (_patch User_patch data s).2 in
  (truthy (field "token" data) = true → tok' = field "token" data) ∧
  (truthy (field "token" data) = false → tok' = s.2) ∧
  (data !! "token" = None → tok' = s.2) ∧
  (∀ v, own (_patch User_patch (<[ "token" := v ]> data) s).1 =
        own (_patch User_patch (delete "token" data) s).1).
Proof.
  cbv zeta. rewrite patch_token. repeat split.
  - by intros ->.
  - by intros ->.
  - intros H. by rewrite (field_none _ _ H).
  - intros v. unfold own.
    rewrite !patch_verified, !patch_mfaEnabled, !patch_email, !patch_premium.
    unfold has, field.
    rewrite !lookup_insert_ne, !lookup_delete_ne by done. reflexivity.
Qed.

(** C8 (as amended).  Patching with [p1] and then with [p2] assigns the same
    [verified], [mfaEnabled], [email] and [premium] as patching once with
    [combine p1 p2]; the credential agrees as well unless [p2] carries a
    falsy [token] while [p1] carries a truthy one; and when the superclass
    patch composes on this input, the two results are then equal as a
    whole. *)
Theorem patch_composition p1 p2 s :
  let twice := _patch User_patch p2 (_patch User_patch p1 s) in
  let once := _patch User_patch (combine p1 p2) s in
  let token_overlay :=
    is_Some (p2 !! "token") → truthy (field "token" p2) = false →
    truthy (field "token" p1) = false in
  own twice.1 = own once.1 ∧
  (token_overlay → twice.2 = once.2) ∧
  (token_overlay →
   User_patch p2 (User_patch p1 (base s.1)) = User_patch (combine p1 p2) (base s.1) →
   twice = once).
Proof.
  cbv zeta.
  assert (Hown : own (_patch User_patch p2 (_patch User_patch p1 s)).1
                 = own (_patch User_patch (combine p1 p2) s).1).
  { unfold own.
    rewrite !patch_verified, !patch_mfaEnabled, !patch_email, !patch_premium.
    rewrite !has_combine, !field_combine.
    f_equal; [f_equal; [f_equal|]|].
    - by destruct (has "verified" p2), (has "verified" p1).
    - destruct (has "mfa_enabled" p2), (has "mfa_enabled" p1); simpl; try done.
      + by rewrite boolean_or_null_defined.
      + by destruct (mfaEnabled s.1).
    - by destruct (has "email" p2), (has "email" p1).
    - by destruct (has "premium" p2), (has "premium" p1). }
  assert (Htok : (is_Some (p2 !! "token") → truthy (field "token" p2) = false →
                  truthy (field "token" p1) = false) →
                 (_patch User_patch p2 (_patch User_patch p1 s)).2
                 = (_patch User_patch (combine p1 p2) s).2).
  { intros Hov. rewrite !patch_token, field_combine.
    destruct (p2 !! "token") as [t2|] eqn:E2.
    - rewrite (has_true _ _ _ E2).
      destruct (truthy (field "token" p2)) eqn:T2; [done|].
      rewrite Hov by eauto. reflexivity.
    - rewrite (has_false _ _ E2), (field_none _ _ E2). reflexivity. }
  split; [exact Hown|]. split; [exact Htok|].
  intros Hov Hbase.
  apply injective_projections; [|by apply Htok].
  apply t_ext.
  - by rewrite !patch_base.
  - by rewrite !patch_typing.
  - by rewrite !patch_settings.
  - exact Hown.
Qed.

End Projections.

(** [patch_absent_or_null] on a payload that only clears [email]. *)
Lemma patch_absent_or_null_witness :
  let data : obj := {[ "email" := VNull ]} in
  let u' := (_patch Sample.User_patch data (Sample.known_user, VUndef)).1 in
  verified u' = VBool true ∧ mfaEnabled u' = VBool false ∧
  premium u' = VNull ∧ email u' = VNull.
Proof.
  cbv zeta.
  destruct (patch_absent_or_null Sample.User_patch {[ "email" := VNull ]}
              (Sample.known_user, VUndef))
    as (Hv & Hm & _ & Hp & _ & _ & He & _).
  split; [apply Hv; vm_compute; reflexivity|].
  split; [apply Hm; [vm_compute; reflexivity | discriminate]|].
  split; [apply Hp; vm_compute; reflexivity|].
  apply He. vm_compute. reflexivity.
Defined.

(** C1 as stated fails: on an object whose [mfaEnabled] was never assigned, a
    payload without [mfa_enabled] changes the property (to [null]). *)
Lemma patch_absent_mfa_counterexample :
  (∅ : obj) !! "mfa_enabled" = None ∧
  mfaEnabled (_patch Sample.User_patch ∅ (Sample.fresh_user, VUndef)).1
    ≠ mfaEnabled Sample.fresh_user.
Proof. split; [reflexivity | vm_compute; discriminate]. Qed.

(** [patch_flags] on a payload carrying a non-boolean [mfa_enabled]. *)
Lemma patch_flags_witness :
  let data : obj := {[ "mfa_enabled" := VNum 1 ]} in
  mfaEnabled (_patch Sample.User_patch data (Sample.known_user, VUndef)).1 = VNull.
Proof.
  cbv zeta.
  apply (patch_flags Sample.User_patch {[ "mfa_enabled" := VNum 1 ]}
           (Sample.known_user, VUndef) (VNum 1)).
  vm_compute. reflexivity.
Defined.

(** C2 as stated fails: a present, non-boolean [verified] is stored as it is,
    not replaced by [null]. *)
Lemma patch_verified_counterexample :
  let data : obj := {[ "verified" := VStr "yes" ]} in
  data !! "verified" = Some (VStr "yes") ∧
  typeof (VStr "yes") ≠ "boolean" ∧
  verified (_patch Sample.User_patch data (Sample.known_user, VUndef)).1 ≠ VNull.
Proof. cbv zeta. split; [|split]; vm_compute; [reflexivity | discriminate | discriminate]. Qed.

(** [patch_token_effect] on a payload that refreshes the credential. *)
Lemma patch_token_effect_witness :
  let data : obj := {[ "token" := VStr "fresh" ]} in
  (_patch Sample.User_patch data (Sample.known_user, VStr "stale")).2 = VStr "fresh".
Proof.
  cbv zeta.
  destruct (patch_token_effect Sample.User_patch {[ "token" := VStr "fresh" ]}
              (Sample.known_user, VStr "stale")) as (H & _).
  apply H. vm_compute. reflexivity.
Defined.

(** C6 as stated fails: a payload that carries [token] with a falsy value
    leaves the credential as it was. *)
Lemma patch_token_counterexample :
  let data : obj := {[ "token" := VStr "" ]} in
  let tok' := (_patch Sample.User_patch data (Sample.known_user, VStr "stale")).2 in
  is_Some (data !! "token") ∧ tok' = VStr "stale" ∧ tok' ≠ field "token" data.
Proof.
  cbv zeta. split; [|split].
  - exists (VStr ""). vm_compute. reflexivity.
  - vm_compute. reflexivity.
  - vm_compute. discriminate.
Qed.

(** [patch_composition] on two payloads that both carry a credential. *)
Lemma patch_composition_witness :
  let p1 : obj := {[ "token" := VStr "t1" ]} in
  let p2 : obj := {[ "token" := VStr "t2" ]} in
  let s := (Sample.known_user, VStr "stale") in
  _patch Sample.User_patch p2 (_patch Sample.User_patch p1 s)
  = _patch Sample.User_patch (combine p1 p2) s.
Proof.
  cbv zeta.
  destruct (patch_composition Sample.User_patch {[ "token" := VStr "t1" ]}
              {[ "token" := VStr "t2" ]} (Sample.known_user, VStr "stale"))
    as (_ & _ & H).
  apply H.
  - intros _ Hf. vm_compute in Hf. discriminate Hf.
  - vm_compute. reflexivity.
Defined.

(** C8 as stated fails on the credential: [p2] carries a [null] token over the
    token of [p1]. *)
Lemma patch_composition_counterexample :
  let p1 : obj := {[ "token" := VStr "t1" ]} in
  let p2 : obj := {[ "token" := VNull ]} in
  let s := (Sample.known_user, VStr "stale") in
  (_patch Sample.User_patch p2 (_patch Sample.User_patch p1 s)).2 = VStr "t1" ∧
  (_patch Sample.User_patch (combine p1 p2) s).2 = VStr "stale" ∧
  _patch Sample.User_patch p2 (_patch Sample.User_patch p1 s)
  ≠ _patch Sample.User_patch (combine p1 p2) s.
Proof.
  cbv zeta. split; [|split].
  - vm_compute. reflexivity.
  - vm_compute. reflexivity.
  - intros H. apply (f_equal snd) in H. vm_compute in H. discriminate H.
Qed.

End PatchMerge.

(** ** CorrelatedRequest: [ClientUser.acceptInvite] *)

Module CorrelatedRequest.
Import JS.
Import ClientUser.

Lemma remove_last_foreign ls : existsb is_handler ls = false → remove_last ls = ls.
Proof.
  induction ls as [|l ls IH]; simpl; [done|].
  intros [Hl Hls]%orb_false_elim. rewrite Hl. simpl. by rewrite IH.
Qed.

Lemma remove_last_snoc ls res :
  existsb is_handler ls = false → remove_last (ls ++ [InviteHandler res]) = ls.
Proof.
  induction ls as [|l ls IH]; simpl; [done|].
  intros [Hl Hls]%orb_false_elim. rewrite Hl. simpl. by rewrite IH.
Qed.

Lemma emit_foreign guild ls w :
  existsb is_handler ls = false → fold_left (call_listener guild) ls w = w.
Proof.
  induction ls as [|l ls IH]; simpl; [done|].
  intros [Hl Hls]%orb_false_elim. destruct l; [discriminate|]. simpl. by apply IH.
Qed.

Lemma emit_snoc guild ls res w :
  existsb is_handler ls = false →
  fold_left (call_listener guild) (ls ++ [InviteHandler res]) w = handler res guild w.
Proof. intros H. rewrite fold_left_app. simpl. by rewrite emit_foreign. Qed.

Lemma handler_matches res guild w :
  handler res guild w = if matches res guild then removeListener (resolve guild w) else w.
Proof. unfold handler, matches. by destruct (id_matches res guild) as [[]|]. Qed.

Section OneCall.

Variable code : value.
Variable ls : list listener.
Hypothesis foreign : existsb is_handler ls = false.

(** The automaton replays the model: a step of the world of a phase is the
    world of the next phase. *)
Lemma step_phase p i :
  step (in_phase code ls p) i = in_phase code ls (phase_step p i).
Proof using foreign.
  destruct p as [ph now], i as [res'|err|g|ms].
  - by destruct ph.
  - by destruct ph.
  - (* a guild is announced *)
    destruct ph; cbn [step in_phase phase_step fst snd]; unfold emit; cbn [listeners];
      try (rewrite emit_foreign by exact foreign; reflexivity).
    rewrite emit_snoc by exact foreign. rewrite handler_matches.
    destruct (matches res g); [|reflexivity].
    unfold removeListener, resolve. cbn.
    by rewrite remove_last_snoc.
  - (* time passes *)
    destruct ph; try reflexivity;
      cbn [step in_phase phase_step fst snd];
      unfold run_timers, set_clock, due; cbn;
      destruct (deadline <=? now + ms)%N eqn:E.
    + rewrite decide_True by done. rewrite decide_False by done. cbn.
      unfold on_timeout, removeListener, reject. cbn.
      by rewrite remove_last_snoc.
    + rewrite decide_False by done. rewrite decide_True by done. reflexivity.
    + rewrite decide_True by done. rewrite decide_False by done. cbn.
      unfold on_timeout, removeListener, reject. cbn.
      by rewrite remove_last_foreign.
    + rewrite decide_False by done. rewrite decide_True by done. reflexivity.
Qed.

Lemma run_phase tr p :
  run tr (in_phase code ls p) = in_phase code ls (phase_run tr p).
Proof using foreign.
  revert p. induction tr as [|i tr IH]; intros p; [reflexivity|].
  unfold run, phase_run in *. simpl. rewrite step_phase. apply IH.
Qed.

End OneCall.

Lemma acceptInvite_phase code ls now w0 :
  acceptInvite code ls now = Some w0 →
  ∃ code', w0 = in_phase code' ls (Requesting, now).
Proof.
  unfold acceptInvite. destruct (get_prop code "id") as [id|]; [|discriminate].
  intros [= <-]. by eexists.
Qed.

Lemma phase_run_app tr1 tr2 p :
  phase_run (tr1 ++ tr2) p = phase_run tr2 (phase_run tr1 p).
Proof. apply fold_left_app. Qed.

Lemma phase_run_cons i tr p :
  phase_run (i :: tr) p = phase_run tr (phase_step p i).
Proof. reflexivity. Qed.

Lemma phase_run_ambient pre now :
  forallb ambient pre = true →
  phase_run pre (Requesting, now) = (Requesting, (now + elapsed pre)%N).
Proof.
  revert now. induction pre as [|i pre IH]; intros now; cbn [forallb elapsed].
  - intros _. by rewrite N.add_0_r.
  - intros [Hi Hpre]%andb_prop. rewrite phase_run_cons.
    destruct i; try discriminate; cbn [phase_step fst snd].
    + by apply IH.
    + rewrite IH by done. by rewrite N.add_assoc.
Qed.

Lemma phase_run_TimedOut tr now :
  phase_run tr (TimedOut, now) = (TimedOut, (now + elapsed tr)%N).
Proof.
  revert now. induction tr as [|i tr IH]; intros now; cbn [elapsed].
  - by rewrite N.add_0_r.
  - rewrite phase_run_cons.
    destruct i; cbn [phase_step fst snd]; rewrite IH; [done..|]. by rewrite N.add_assoc.
Qed.

Lemma phase_run_quiet res d post now :
  (now < d)%N →
  forallb (quiet res) post = true →
  phase_run post (Waiting res d, now) =
  (if (d <=? now + elapsed post)%N then TimedOut else Waiting res d,
   (now + elapsed post)%N).
Proof.
  revert now. induction post as [|i post IH]; intros now Hnow; cbn [forallb elapsed].
  - intros _. rewrite N.add_0_r. cbn.
    destruct (N.leb_spec d now) as [Hle|_]; [lia | reflexivity].
  - intros [Hi Hpost]%andb_prop. rewrite phase_run_cons.
    destruct i as [res'|err|g|ms]; cbn [phase_step fst snd].
    + by apply IH.
    + by apply IH.
    + simpl in Hi. apply negb_true_iff in Hi. rewrite Hi. by apply IH.
    + rewrite N.add_assoc.
      destruct (N.leb_spec d (now + ms)) as [Hle|Hlt].
      * rewrite (phase_run_TimedOut post (now + ms)).
        destruct (N.leb_spec d (now + ms + elapsed post)); [reflexivity | lia].
      * by apply IH.
Qed.

(** A settled promise stays as it is, and so do the listeners, whatever
    happens next. *)
Lemma settled_step code ls p i :
  promise (in_phase code ls p) ≠ Pending →
  promise (in_phase code ls (phase_step p i)) = promise (in_phase code ls p) ∧
  listeners (in_phase code ls (phase_step p i)) = listeners (in_phase code ls p).
Proof.
  destruct p as [ph now]. intros H.
  destruct ph; try (by destruct H); destruct i; simpl; try done.
  by destruct (deadline <=? now + ms)%N.
Qed.

Lemma settled_run code ls tr p :
  promise (in_phase code ls p) ≠ Pending →
  promise (in_phase code ls (phase_run tr p)) = promise (in_phase code ls p).
Proof.
  revert p. induction tr as [|i tr IH]; intros p H; [reflexivity|].
  rewrite phase_run_cons.
  destruct (settled_step code ls p i H) as [Hp _].
  rewrite IH; [exact Hp | by rewrite Hp].
Qed.

Lemma Error_inj a b : Error a = Error b → a = b.
Proof.
  intros H.
  apply (f_equal (λ v, match v with VObj m => m !! "message" | _ => None end)) in H.
  unfold Error in H. rewrite !lookup_singleton_eq in H. congruence.
Qed.

(** C3 (as amended).  Once the request has been answered with [res], a guild
    event matching [res] that arrives before 120000 ms have passed resolves
    the promise with that guild; if 120000 ms pass without one, the promise
    is rejected with the time-out error; if the request fails, the promise is
    rejected with the fixed invalid-code error, whatever the failure was and
    whatever arrives later; the two errors differ. *)
Theorem acceptInvite_outcomes code ls now w0 pre res post g err rest :
  acceptInvite code ls now = Some w0 →
  existsb is_handler ls = false →
  forallb ambient pre = true →
  forallb (quiet res) post = true →
  ((elapsed post < 120000)%N → matches res g = true →
   promise (run (pre ++ Respond res :: post ++ GuildCreate g :: rest) w0) = Resolved g) ∧
  ((120000 ≤ elapsed post)%N →
   promise (run (pre ++ Respond res :: post ++ rest) w0)
   = Rejected (Error "Accepting invite timed out")) ∧
  promise (run (pre ++ Fail err :: rest) w0) = Rejected (Error "Invite code is not valid") ∧
  Error "Invite code is not valid" ≠ Error "Accepting invite timed out".
Proof.
  intros [code' ->]%acceptInvite_phase Hls Hpre Hpost.
  repeat split.
  - intros Ht Hg. rewrite run_phase by done.
    rewrite phase_run_app, (phase_run_ambient pre now Hpre).
    rewrite phase_run_cons. cbn [phase_step fst snd].
    rewrite phase_run_app, phase_run_quiet by (done || lia).
    destruct (N.leb_spec (now + elapsed pre + 120000) (now + elapsed pre + elapsed post));
      [lia|].
    rewrite phase_run_cons. cbn [phase_step fst snd]. rewrite Hg. by rewrite settled_run.
  - intros Ht. rewrite run_phase by done.
    rewrite phase_run_app, (phase_run_ambient pre now Hpre).
    rewrite phase_run_cons. cbn [phase_step fst snd].
    rewrite phase_run_app, phase_run_quiet by (done || lia).
    destruct (N.leb_spec (now + elapsed pre + 120000) (now + elapsed pre + elapsed post));
      [|lia].
    by rewrite settled_run.
  - rewrite run_phase by done.
    rewrite phase_run_app, (phase_run_ambient pre now Hpre).
    rewrite phase_run_cons. cbn [phase_step fst snd].
    by rewrite settled_run.
  - intros H%Error_inj. discriminate H.
Qed.

(** C4 (as amended).  Whatever happens after the call, a settled promise
    leaves no handler registered; a failed request never registered one and
    removes nothing; the time-out calls [removeListener] once; a match calls it
    once and leaves the timer pending, and when that timer fires
    [removeListener] is called a second time, finding nothing to remove; after
    the promise is settled no input changes it or the listeners. *)
Theorem subscription_cleanup code ls now w0 tr :
  acceptInvite code ls now = Some w0 →
  existsb is_handler ls = false →
  let w := run tr w0 in
  (promise w ≠ Pending → listeners w = ls) ∧
  (promise w = Rejected (Error "Invite code is not valid") →
   removals w = 0 ∧ timers w = []) ∧
  (promise w = Rejected (Error "Accepting invite timed out") →
   removals w = 1 ∧ timers w = []) ∧
  (∀ g, promise w = Resolved g →
   (removals w = 1 ∧ ∃ d res, timers w = [(d, res)]) ∨
   (removals w = 2 ∧ timers w = [])) ∧
  (∀ i, promise w ≠ Pending →
   promise (step w i) = promise w ∧ listeners (step w i) = listeners w).
Proof.
  intros [code' ->]%acceptInvite_phase Hls. cbv zeta.
  rewrite run_phase by done.
  split; [|split; [|split; [|split]]].
  - destruct (phase_run tr (Requesting, now)) as [[] t]; simpl; done.
  - destruct (phase_run tr (Requesting, now)) as [[] t]; simpl; try done;
      intros [= H%Error_inj]; discriminate H.
  - destruct (phase_run tr (Requesting, now)) as [[] t]; simpl; try done;
      intros [= H%Error_inj]; discriminate H.
  - intros g'. destruct (phase_run tr (Requesting, now)) as [[] t]; simpl; try done;
      intros _; [left | right]; eauto.
  - intros i H. rewrite step_phase by done. by apply settled_step.
Qed.

(** C10 (as amended).  When [arg.id] is truthy and has no truthy [id] of its
    own, a call with [arg] and a call with [arg.id] start from the same
    world, in which the request was issued with [arg.id]; every later
    behaviour is therefore the same. *)
Theorem acceptInvite_normalises arg id ls now :
  get_prop arg "id" = Some id →
  truthy id = true →
  (∀ id', get_prop id "id" = Some id' → truthy id' = false) →
  acceptInvite arg ls now = acceptInvite id ls now ∧
  (∃ w, acceptInvite arg ls now = Some w ∧ issued w = id) ∧
  (∀ tr, run tr <$> acceptInvite arg ls now = run tr <$> acceptInvite id ls now).
Proof.
  intros Harg Hid Hinner.
  assert (E : acceptInvite arg ls now = acceptInvite id ls now).
  { unfold acceptInvite. rewrite Harg, Hid.
    destruct (get_prop id "id") as [id'|] eqn:E'.
    - by rewrite (Hinner id' eq_refl).
    - by destruct id. }
  split; [exact E|]. split.
  - unfold acceptInvite. rewrite Harg, Hid. by eexists.
  - intros tr. by rewrite E.
Qed.

(** [acceptInvite_outcomes] on a call that is answered, sees an unrelated
    guild and then the awaited one after five seconds; on the same call left
    without the awaited guild for two minutes; and on a failing request. *)
Lemma acceptInvite_outcomes_witness :
  promise (run ([GuildCreate Sample.other_guild] ++ Respond Sample.invite_res
                :: [Elapse 5000; GuildCreate Sample.other_guild]
                ++ GuildCreate Sample.joined_guild :: [Elapse 200000]) Sample.fresh_call)
  = Resolved Sample.joined_guild ∧
  promise (run ([GuildCreate Sample.other_guild] ++ Respond Sample.invite_res
                :: [Elapse 60000; GuildCreate Sample.other_guild; Elapse 60000]
                ++ [GuildCreate Sample.joined_guild]) Sample.fresh_call)
  = Rejected (Error "Accepting invite timed out") ∧
  promise (run ([GuildCreate Sample.other_guild] ++ Fail (VStr "ECONNRESET")
                :: [GuildCreate Sample.joined_guild]) Sample.fresh_call)
  = Rejected (Error "Invite code is not valid").
Proof.
  split; [|split].
  - apply (acceptInvite_outcomes (VStr "abc") [Foreign 0] 0 Sample.fresh_call
             [GuildCreate Sample.other_guild] Sample.invite_res
             [Elapse 5000; GuildCreate Sample.other_guild]
             Sample.joined_guild VNull [Elapse 200000]);
      vm_compute; reflexivity.
  - apply (acceptInvite_outcomes (VStr "abc") [Foreign 0] 0 Sample.fresh_call
             [GuildCreate Sample.other_guild] Sample.invite_res
             [Elapse 60000; GuildCreate Sample.other_guild; Elapse 60000]
             Sample.joined_guild VNull [GuildCreate Sample.joined_guild]);
      try (vm_compute; reflexivity).
    vm_compute. discriminate.
  - apply (acceptInvite_outcomes (VStr "abc") [Foreign 0] 0 Sample.fresh_call
             [GuildCreate Sample.other_guild] Sample.invite_res []
             Sample.joined_guild (VStr "ECONNRESET") [GuildCreate Sample.joined_guild]);
      vm_compute; reflexivity.
Defined.

(** C3 as stated fails: a request that fails with some error rejects the
    promise with another, fixed error; and the awaited guild announced before
    the request is answered is not seen, so that the call times out. *)
Lemma acceptInvite_failure_counterexample :
  acceptInvite (VStr "abc") [Foreign 0] 0 = Some Sample.fresh_call ∧
  promise (run [Fail (Error "Unknown Invite")] Sample.fresh_call)
  = Rejected (Error "Invite code is not valid") ∧
  promise (run [Fail (Error "Unknown Invite")] Sample.fresh_call)
  ≠ Rejected (Error "Unknown Invite") ∧
  matches Sample.invite_res Sample.joined_guild = true ∧
  promise (run [Elapse 10; GuildCreate Sample.joined_guild; Elapse 10;
                Respond Sample.invite_res; Elapse 120000] Sample.fresh_call)
  = Rejected (Error "Accepting invite timed out").
Proof.
  split; [reflexivity|]. split; [reflexivity|]. split.
  - intros H. vm_compute in H. discriminate H.
  - split; vm_compute; reflexivity.
Qed.

(** [subscription_cleanup] on the call that was answered and then saw the
    awaited guild. *)
Lemma subscription_cleanup_witness :
  let w := run [Respond Sample.invite_res; GuildCreate Sample.joined_guild]
               Sample.fresh_call in
  listeners w = [Foreign 0] ∧
  ((removals w = 1 ∧ ∃ d res, timers w = [(d, res)]) ∨
   (removals w = 2 ∧ timers w = [])).
Proof.
  cbv zeta.
  destruct (subscription_cleanup (VStr "abc") [Foreign 0] 0 Sample.fresh_call
              [Respond Sample.invite_res; GuildCreate Sample.joined_guild]
              eq_refl eq_refl) as (Hl & _ & _ & Hm & _).
  split.
  - apply Hl. vm_compute. discriminate.
  - apply (Hm Sample.joined_guild). vm_compute. reflexivity.
Defined.

(** C4 as stated fails: after a match the timer is still pending, and when it
    fires [removeListener] is called a second time; a failing request removes
    nothing at all. *)
Lemma subscription_cleanup_counterexample :
  let matched := run [Respond Sample.invite_res; GuildCreate Sample.joined_guild]
                     Sample.fresh_call in
  promise matched = Resolved Sample.joined_guild ∧
  timers matched = [(120000%N, Sample.invite_res)] ∧
  removals (step matched (Elapse 120000)) = 2 ∧
  removals (run [Fail VNull; Elapse 120000] Sample.fresh_call) = 0.
Proof. cbv zeta. repeat split; vm_compute; reflexivity. Qed.

(** [acceptInvite_normalises] on an object whose [id] is the code. *)
Lemma acceptInvite_normalises_witness :
  acceptInvite (VObj {[ "id" := VStr "abc" ]}) [Foreign 0] 0
  = acceptInvite (VStr "abc") [Foreign 0] 0.
Proof.
  apply (acceptInvite_normalises (VObj {[ "id" := VStr "abc" ]}) (VStr "abc")).
  - vm_compute. reflexivity.
  - vm_compute. reflexivity.
  - intros id'. vm_compute. intros [= <-]. reflexivity.
Defined.

(** C10 as stated fails: when [arg.id] has a truthy [id] of its own, the two
    calls issue different requests. *)
Lemma acceptInvite_normalises_counterexample :
  let inner := VObj {[ "id" := VStr "abc" ]} in
  let arg := VObj {[ "id" := inner ]} in
  get_prop arg "id" = Some inner ∧ truthy inner = true ∧
  issued <$> acceptInvite arg [] 0 = Some inner ∧
  issued <$> acceptInvite inner [] 0 = Some (VStr "abc") ∧
  acceptInvite arg [] 0 ≠ acceptInvite inner [] 0.
Proof.
  cbv zeta. repeat split; try (vm_compute; reflexivity).
  intros H. apply (f_equal (fmap issued)) in H. vm_compute in H. discriminate H.
Qed.

End CorrelatedRequest.

(** ** ActionDispatcher: [UserSettingsUpdateAction.handle] *)

Module ActionDispatcher.
Import JS.
Import ClientUser.
Import UserSettingsUpdateAction.

Section Handle.

Context {Base Settings : Type}.
Variable USER_SETTINGS_UPDATE : string.

Implicit Types (c : client Base Settings) (events : list value).

Lemma handle_all_emitted events c :
  emitted (handle_all USER_SETTINGS_UPDATE events c).2
  = emitted c ++ ((λ settings, (USER_SETTINGS_UPDATE, settings)) <$> events).
Proof.
  revert c. induction events as [|settings rest IH]; intros c; simpl.
  - by rewrite app_nil_r.
  - specialize (IH (handle USER_SETTINGS_UPDATE settings c).2).
    destruct (handle_all USER_SETTINGS_UPDATE rest _) as [rs c'].
    simpl in *. rewrite IH. by rewrite <- app_assoc.
Qed.

Lemma handle_all_results events c :
  (handle_all USER_SETTINGS_UPDATE events c).1
  = (λ settings, VObj {[ "settings" := settings ]}) <$> events.
Proof.
  revert c. induction events as [|settings rest IH]; intros c; simpl; [done|].
  specialize (IH (handle USER_SETTINGS_UPDATE settings c).2).
  destruct (handle_all USER_SETTINGS_UPDATE rest _) as [rs c'].
  simpl in *. by rewrite IH.
Qed.

(** C7.  One call of the handler emits one [USER_SETTINGS_UPDATE] carrying the
    payload and returns an object holding that payload; [N] calls in a row
    leave exactly [N] new emissions, in dispatch order, and [N] results; in
    particular two equal payloads make two emissions. *)
Theorem handle_emits_once_per_event events settings c :
  handle USER_SETTINGS_UPDATE settings c
  = (VObj {[ "settings" := settings ]},
     set_emitted (emitted c ++ [(USER_SETTINGS_UPDATE, settings)]) c) ∧
  emitted (handle_all USER_SETTINGS_UPDATE events c).2
  = emitted c ++ ((λ settings, (USER_SETTINGS_UPDATE, settings)) <$> events) ∧
  length (emitted (handle_all USER_SETTINGS_UPDATE events c).2)
  = length (emitted c) + length events ∧
  (handle_all USER_SETTINGS_UPDATE events c).1
  = (λ settings, VObj {[ "settings" := settings ]}) <$> events ∧
  emitted (handle_all USER_SETTINGS_UPDATE [settings; settings] c).2
  = emitted c ++ [(USER_SETTINGS_UPDATE, settings); (USER_SETTINGS_UPDATE, settings)].
Proof.
  split; [reflexivity|]. split; [apply handle_all_emitted|].
  split; [|split; [apply handle_all_results | by rewrite handle_all_emitted]].
  rewrite handle_all_emitted, length_app, length_fmap. reflexivity.
Qed.

End Handle.

End ActionDispatcher.

(** ** ReadinessGate: the READY packet handler *)

Module ReadinessGate.
Import JS.
Import ClientUser.
Import Ready.

Lemma strict_eq_eq a b : strict_eq a b = true → a = b.
Proof.
  destruct a, b; simpl; try discriminate; try done.
  - intros H%Bool.eqb_prop. by subst.
  - intros H%Z.eqb_eq. by subst.
  - intros H%String.eqb_eq. by subst.
Qed.

(** After [set], the key is in the map with the new value, and the entries
    under other keys are still there. *)
Lemma Map_set_elem k r m : (k, r) ∈ Map_set k r m.
Proof.
  induction m as [|[k' r'] m IH]; simpl; [by left|].
  destruct (strict_eq k' k) eqn:E.
  - apply strict_eq_eq in E as ->. by left.
  - by right.
Qed.


Section Handler.

Context {Base Settings : Type}.
Variable User_patch : obj -> Base -> Base.
Variable User_new : value -> value -> option (t Base Settings * value).
Variable ClientUserSettings_new : value -> Settings.
Variable User_id : Base -> value.

Implicit Types (c : client Base Settings) (data : obj).

Lemma set_calls_id c : set_calls (calls c ++ []) c = c.
Proof. destruct c. unfold set_calls. simpl. by rewrite app_nil_r. Qed.

Lemma add_guilds_tagged sid gs c :
  Forall (λ g, is_Some (set_prop g "shardID" sid)) gs →
  add_guilds sid gs c
  = Normal tt (set_calls (calls c ++ (GuildsAdd ∘ tagged sid <$> gs)) c).
Proof.
  intros H. revert c. induction H as [|g gs [g' Hg] _ IH]; intros c; simpl.
  - by rewrite set_calls_id.
  - unfold add_guild, tagged. rewrite Hg. simpl. rewrite IH.
    unfold log, set_calls. simpl. by rewrite <- app_assoc.
Qed.

Lemma add_channels_calls cs c :
  add_channels cs c = set_calls (calls c ++ (ChannelsAdd <$> cs)) c.
Proof.
  unfold add_channels. revert c. induction cs as [|x cs IH]; intros c; simpl.
  - by rewrite set_calls_id.
  - rewrite IH. unfold log, set_calls. simpl. by rewrite <- app_assoc.
Qed.


Lemma patch_at_Some r u data c :
  heap c !! r = Some u →
  patch_at User_patch r data c
  = Normal tt (set_token (_patch User_patch data (u, token c)).2
                 (set_heap (<[r := (_patch User_patch data (u, token c)).1]> (heap c)) c)).
Proof.
  intros Hu. unfold patch_at. rewrite Hu.
  by destruct (_patch User_patch data (u, token c)).
Qed.

(** The two loops and the readiness check, once the user branch is done. *)
Lemma READY_after_user data sid c c1 gs gp cs cp :
  field "guilds" data = VArr gs gp →
  field "private_channels" data = VArr cs cp →
  Forall (λ g, is_Some (set_prop g "shardID" sid)) gs →
  ready_user User_patch User_new ClientUserSettings_new User_id data c = Normal tt c1 →
  READY User_patch User_new ClientUserSettings_new User_id data sid c
  = Normal tt (set_calls (calls c1 ++ ready_calls sid gs cs) c1).
Proof.
  intros Hg Hc Hobj Hu. unfold READY. rewrite Hu, Hg. simpl.
  rewrite (add_guilds_tagged sid gs c1 Hobj), Hc. simpl.
  rewrite add_channels_calls. unfold log, set_calls, ready_calls. simpl.
  by rewrite <- !app_assoc.
Qed.


End Handler.


End ReadinessGate.

(** ** [ClientUser.edit] and the session credential *)

Module Credential.
Import JS.
Import ClientUser.

Section Edit.

Context {Base Settings : Type}.
Variable User_patch : obj -> Base -> Base.
Variable UserUpdate_handle :
  value -> client Base Settings -> completion Base Settings (option nat).

Implicit Types (c : client Base Settings).

(** C9.  When [edit] succeeds on the response [newData], the client that
    [UserUpdate.handle] receives has its credential overwritten with
    [newData.token], which is [undefined] when the response is an object
    without that key; if that handler leaves the credential alone or stores
    the token of its argument, this is also the credential when [edit]
    returns.  [_patch], given the same object without [token], keeps the
    credential. *)
Theorem edit_overwrites_token this newData c r c' :
  edit UserUpdate_handle this (inl newData) c = Normal r c' →
  ∃ tok, get_prop newData "token" = Some tok ∧
    c' = state_of (UserUpdate_handle newData (set_token tok c)) ∧
    (∀ fs, newData = VObj fs → fs !! "token" = None → tok = VUndef) ∧
    ((∀ d c0, token (state_of (UserUpdate_handle d c0)) = token c0 ∨
              get_prop d "token" = Some (token (state_of (UserUpdate_handle d c0)))) →
     token c' = tok) ∧
    (∀ fs (s : t Base Settings * value), newData = VObj fs → fs !! "token" = None →
     (_patch User_patch fs s).2 = s.2).
Proof.
  simpl. unfold edit_then.
  destruct (get_prop newData "token") as [tok|] eqn:Etok; [|discriminate].
  destruct (UserUpdate_handle newData (set_token tok c)) as [updated c2|c2] eqn:Eh;
    [|discriminate].
  intros Hret. exists tok. split; [reflexivity|].
  assert (c' = c2) as -> by (destruct updated; by injection Hret).
  split; [by rewrite Eh|]. split; [|split].
  - intros fs -> Hnone. simpl in Etok. unfold field in Etok. rewrite Hnone in Etok.
    by injection Etok.
  - intros Hframe. destruct (Hframe newData (set_token tok c)) as [H|H];
      rewrite Eh in H; simpl in H.
    + by destruct c.
    + congruence.
  - intros fs s _ Hnone. simpl. by rewrite (PatchMerge.field_none _ _ Hnone).
Qed.

End Edit.

Lemma Sample_UserUpdate_handle_token d c0 :
  token (state_of (Sample.UserUpdate_handle d c0)) = token c0 ∨
  get_prop d "token" = Some (token (state_of (Sample.UserUpdate_handle d c0))).
Proof.
  unfold Sample.UserUpdate_handle.
  destruct d; try (by left). destruct (user c0) as [r|]; [|by left].
  unfold patch_at. destruct (heap c0 !! r) as [u|]; [|by left]. simpl.
  destruct (truthy (field "token" fields)); [by right | left; by destruct c0].
Qed.

(** [edit_overwrites_token] on a response without [token]: the credential of
    the logged-in client becomes [undefined]. *)
Lemma edit_overwrites_token_witness :
  let newData := VObj {[ "id" := VStr "42"; "username" := VStr "b1nzy" ]} in
  token Sample.logged_in = VStr "old-token" ∧
  token (state_of (edit Sample.UserUpdate_handle 0 (inl newData) Sample.logged_in))
  = VUndef.
Proof.
  cbv zeta. split; [reflexivity|].
  destruct (edit Sample.UserUpdate_handle 0
              (inl (VObj {[ "id" := VStr "42"; "username" := VStr "b1nzy" ]}))
              Sample.logged_in) as [r c'|c'] eqn:E;
    [|vm_compute in E; discriminate E].
  destruct (edit_overwrites_token Sample.User_patch Sample.UserUpdate_handle 0 _ _ r c' E)
    as (tok & Htok & _ & _ & Hfinal & _).
  simpl. rewrite (Hfinal Sample_UserUpdate_handle_token).
  vm_compute in Htok. by injection Htok.
Defined.

End Credential.

(** ** Further laws of [ClientUser._patch] *)

Module PatchMergeLaws.
Import JS.
Import ClientUser.
Import PatchMerge.

Lemma has_lookup k (o o' : obj) : o !! k = o' !! k → has k o = has k o'.
Proof. unfold has. by intros ->. Qed.

Lemma field_lookup k (o o' : obj) : o !! k = o' !! k → field k o = field k o'.
Proof. unfold field. by intros ->. Qed.

Lemma boolean_or_null_shape v :
  (∃ b, boolean_or_null v = VBool b) ∨ boolean_or_null v = VNull.
Proof. destruct v; simpl; eauto. Qed.

Lemma string_or_null_shape v :
  (∃ s, string_or_null v = VStr s) ∨ string_or_null v = VNull.
Proof. destruct v; simpl; eauto. Qed.

Section Laws.

Context {Base Settings : Type}.
Variable User_patch : obj -> Base -> Base.

Implicit Types (data : obj) (s : t Base Settings * value).

(** X1.  Patching twice with the same payload assigns the same own
    properties and the same credential as patching once; when the superclass
    patch is idempotent on the input, the two results are equal. *)
Theorem patch_idempotent data s :
  let once := _patch User_patch data s in
  let twice := _patch User_patch data once in
  own twice.1 = own once.1 ∧
  twice.2 = once.2 ∧
  (User_patch data (User_patch data (base s.1)) = User_patch data (base s.1) →
   twice = once).
Proof.
  cbv zeta.
  assert (Hown : own (_patch User_patch data (_patch User_patch data s)).1
                 = own (_patch User_patch data s).1).
  { unfold own.
    rewrite !patch_verified, !patch_mfaEnabled, !patch_email, !patch_premium.
    f_equal; [f_equal; [f_equal|]|].
    - by destruct (has "verified" data).
    - destruct (has "mfa_enabled" data); [done|]. by destruct (mfaEnabled s.1).
    - by destruct (has "email" data).
    - by destruct (has "premium" data). }
  assert (Htok : (_patch User_patch data (_patch User_patch data s)).2
                 = (_patch User_patch data s).2).
  { rewrite !patch_token. by destruct (truthy (field "token" data)). }
  split; [exact Hown|]. split; [exact Htok|].
  intros Hbase. apply injective_projections; [|exact Htok].
  apply t_ext; [|by rewrite !patch_typing|by rewrite !patch_settings|exact Hown].
  by rewrite !patch_base.
Qed.

(** X2.  Only five keys of a payload matter: two payloads that agree on
    [verified], [mfa_enabled], [email], [premium] and [token] assign the same
    own properties and the same credential, whatever else they carry. *)
Theorem patch_reads_five_keys data data' s :
  Forall (λ k, data !! k = data' !! k)
         ["verified"; "mfa_enabled"; "email"; "premium"; "token"] →
  own (_patch User_patch data s).1 = own (_patch User_patch data' s).1 ∧
  (_patch User_patch data s).2 = (_patch User_patch data' s).2.
Proof.
  intros H.
  apply Forall_cons in H as [Hv H]. apply Forall_cons in H as [Hm H].
  apply Forall_cons in H as [He H]. apply Forall_cons in H as [Hp H].
  apply Forall_cons in H as [Ht _].
  split.
  - unfold own.
    rewrite !patch_verified, !patch_mfaEnabled, !patch_email, !patch_premium.
    rewrite (has_lookup _ _ _ Hv), (field_lookup _ _ _ Hv),
      (has_lookup _ _ _ Hm), (field_lookup _ _ _ Hm),
      (has_lookup _ _ _ He), (field_lookup _ _ _ He),
      (has_lookup _ _ _ Hp), (field_lookup _ _ _ Hp).
    reflexivity.
  - rewrite !patch_token. by rewrite (field_lookup _ _ _ Ht).
Qed.

(** X3.  Whatever the payload, after a patch [mfaEnabled] is not [undefined];
    a present [mfa_enabled] or [premium] leaves a boolean or [null], a present
    [email] a string or [null]; [settings] and [_typing] are never touched. *)
Theorem patch_shape data s :
  let u' := (_patch User_patch data s).1 in
  mfaEnabled u' ≠ VUndef ∧
  (is_Some (data !! "mfa_enabled") →
   (∃ b, mfaEnabled u' = VBool b) ∨ mfaEnabled u' = VNull) ∧
  (is_Some (data !! "premium") →
   (∃ b, premium u' = VBool b) ∨ premium u' = VNull) ∧
  (is_Some (data !! "email") →
   (∃ e, email u' = VStr e) ∨ email u' = VNull) ∧
  settings u' = settings s.1 ∧
  _typing u' = _typing s.1.
Proof.
  cbv zeta.
  rewrite patch_mfaEnabled, patch_premium, patch_email, patch_settings, patch_typing.
  split; [|split; [|split; [|split; [|done]]]].
  - destruct (has "mfa_enabled" data).
    + by destruct (field "mfa_enabled" data).
    + by destruct (mfaEnabled s.1).
  - intros [v Hv]. rewrite (has_true _ _ _ Hv). apply boolean_or_null_shape.
  - intros [v Hv]. rewrite (has_true _ _ _ Hv). apply boolean_or_null_shape.
  - intros [v Hv]. rewrite (has_true _ _ _ Hv). apply string_or_null_shape.
Qed.

End Laws.

(** [patch_idempotent] on a payload that renames the user. *)
Lemma patch_idempotent_witness :
  let data : obj := {[ "username" := VStr "b1nzy"; "premium" := VBool true;
                       "token" := VStr "t" ]} in
  _patch Sample.User_patch data
    (_patch Sample.User_patch data (Sample.fresh_user, VUndef))
  = _patch Sample.User_patch data (Sample.fresh_user, VUndef).
Proof.
  cbv zeta.
  apply (patch_idempotent Sample.User_patch
           {[ "username" := VStr "b1nzy"; "premium" := VBool true; "token" := VStr "t" ]}
           (Sample.fresh_user, VUndef)).
  vm_compute. reflexivity.
Defined.

(** [patch_reads_five_keys] on a payload with and without a key this class
    does not read. *)
Lemma patch_reads_five_keys_witness :
  let data : obj := {[ "verified" := VBool false; "flags" := VNum 64 ]} in
  let data' : obj := {[ "verified" := VBool false ]} in
  own (_patch Sample.User_patch data (Sample.known_user, VNull)).1
  = own (_patch Sample.User_patch data' (Sample.known_user, VNull)).1.
Proof.
  cbv zeta.
  apply (patch_reads_five_keys Sample.User_patch
           {[ "verified" := VBool false; "flags" := VNum 64 ]}
           {[ "verified" := VBool false ]} (Sample.known_user, VNull)).
  repeat constructor; vm_compute; reflexivity.
Defined.

(** [patch_shape] on a payload whose [premium] is not a boolean. *)
Lemma patch_shape_witness :
  let data : obj := {[ "premium" := VNum 2 ]} in
  let u' := (_patch Sample.User_patch data (Sample.fresh_user, VUndef)).1 in
  (∃ b, premium u' = VBool b) ∨ premium u' = VNull.
Proof.
  cbv zeta.
  apply (patch_shape Sample.User_patch {[ "premium" := VNum 2 ]}
           (Sample.fresh_user, VUndef)).
  exists (VNum 2). vm_compute. reflexivity.
Defined.

End PatchMergeLaws.

(** ** Further laws of [ClientUser.acceptInvite] *)

Module CorrelatedRequestLaws.
Import JS.
Import ClientUser.
Import CorrelatedRequest.

Lemma matches_ids res g :
  matches res g = true →
  ∃ a b, get_prop g "id" = Some a ∧ get_prop res "id" = Some b ∧ strict_eq a b = true.
Proof.
  unfold matches, id_matches.
  destruct (get_prop g "id") as [a|]; [|discriminate].
  destruct (get_prop res "id") as [b|]; [|discriminate].
  destruct (strict_eq a b) eqn:E; [|discriminate]. eauto.
Qed.

Lemma waiting_resolved code ls tr res d now g :
  promise (in_phase code ls (phase_run tr (Waiting res d, now))) = Resolved g →
  matches res g = true ∧ In (GuildCreate g) tr.
Proof.
  revert now. induction tr as [|i tr IH]; intros now; [discriminate|].
  rewrite phase_run_cons.
  destruct i as [res'|err|g'|ms]; cbn [phase_step fst snd].
  - intros [? ?]%IH. split; [done | by right].
  - intros [? ?]%IH. split; [done | by right].
  - destruct (matches res g') eqn:Hm.
    + rewrite settled_run by done. intros [= ->]. split; [done | by left].
    + intros [? ?]%IH. split; [done | by right].
  - destruct (d <=? now + ms)%N.
    + rewrite settled_run by done. discriminate.
    + intros [? ?]%IH. split; [done | by right].
Qed.

Lemma filter_foreign ls :
  existsb is_handler ls = false → filter (λ l, is_handler l = false) ls = ls.
Proof.
  induction ls as [|l ls IH]; [done|]. simpl.
  intros [Hl Hls]%orb_false_elim. rewrite filter_cons, decide_True by done.
  by rewrite IH.
Qed.

(** X4.  A request that is never answered never settles the promise: however
    much time passes and whichever guilds are announced, the promise stays
    pending, no handler is registered and no timer is set. *)
Theorem unanswered_stays_pending code ls now w0 tr :
  acceptInvite code ls now = Some w0 →
  existsb is_handler ls = false →
  forallb ambient tr = true →
  let w := run tr w0 in
  promise w = Pending ∧ in_flight w = true ∧ listeners w = ls ∧
  timers w = [] ∧ removals w = 0 ∧ clock w = (now + elapsed tr)%N.
Proof.
  intros [code' ->]%acceptInvite_phase Hls Htr. cbv zeta.
  rewrite run_phase by done. by rewrite phase_run_ambient.
Qed.

(** X5.  The promise only ever resolves with a guild that was announced after
    the answer of the request and whose [id] is strictly equal to the [id] of
    that answer; an answer whose [id] cannot be read never resolves it. *)
Theorem resolved_guild_matches code ls now w0 pre res tr g :
  acceptInvite code ls now = Some w0 →
  existsb is_handler ls = false →
  forallb ambient pre = true →
  promise (run (pre ++ Respond res :: tr) w0) = Resolved g →
  In (GuildCreate g) tr ∧
  ∃ a b, get_prop g "id" = Some a ∧ get_prop res "id" = Some b ∧ strict_eq a b = true.
Proof.
  intros [code' ->]%acceptInvite_phase Hls Hpre.
  rewrite run_phase by done.
  rewrite phase_run_app, (phase_run_ambient pre now Hpre), phase_run_cons.
  cbn [phase_step fst snd].
  intros [Hm Hin]%waiting_resolved. split; [done | by apply matches_ids].
Qed.

(** X6.  At every moment of a call: the code handed to the request is the one
    fixed at the start, at most one timer is pending, [removeListener] has been
    called at most twice, the listeners of the rest of the application are
    registered as before and in the same order, and at most one handler of the
    call is registered behind them. *)
Theorem call_invariant code ls now w0 tr :
  acceptInvite code ls now = Some w0 →
  existsb is_handler ls = false →
  let w := run tr w0 in
  issued w = issued w0 ∧
  (length (timers w) ≤ 1)%nat ∧
  (removals w ≤ 2)%nat ∧
  filter (λ l, is_handler l = false) (listeners w) = ls ∧
  (listeners w = ls ∨ ∃ res, listeners w = ls ++ [InviteHandler res]) ∧
  (in_flight w = true → promise w = Pending ∧ listeners w = ls ∧ timers w = []).
Proof.
  intros [code' ->]%acceptInvite_phase Hls. cbv zeta.
  rewrite run_phase by done.
  destruct (phase_run tr (Requesting, now)) as [[] t]; cbn;
    repeat split; try lia; try done; try (by apply filter_foreign); eauto.
  rewrite filter_app, filter_foreign by done. by rewrite app_nil_r.
Qed.

(** X7.  The argument of [acceptInvite]: the call throws exactly on [null]
    and [undefined]; a string is issued as it is; any other value is replaced
    by its [id] when that is truthy and issued as it is otherwise.  When the
    call does not throw it starts pending, with the listeners of the client
    untouched and no timer set. *)
Theorem acceptInvite_argument code ls now :
  (acceptInvite code ls now = None ↔ code = VNull ∨ code = VUndef) ∧
  (∀ s, code = VStr s →
     acceptInvite code ls now = Some (World code true Pending ls [] now 0)) ∧
  (∀ id, get_prop code "id" = Some id →
     acceptInvite code ls now
     = Some (World (if truthy id then id else code) true Pending ls [] now 0)).
Proof.
  split; [|split].
  - destruct code; simpl; split; try done; try (by intros [|]); auto.
  - by intros s ->.
  - intros id H. unfold acceptInvite. by rewrite H.
Qed.

(** [unanswered_stays_pending]: two hours and the awaited guild go by. *)
Lemma unanswered_stays_pending_witness :
  promise (run [Elapse 3600000; GuildCreate Sample.joined_guild; Elapse 3600000]
               Sample.fresh_call) = Pending.
Proof.
  apply (unanswered_stays_pending (VStr "abc") [Foreign 0] 0 Sample.fresh_call
           [Elapse 3600000; GuildCreate Sample.joined_guild; Elapse 3600000]);
    reflexivity.
Defined.

(** [resolved_guild_matches] on a call resolved by the second guild. *)
Lemma resolved_guild_matches_witness :
  ∃ a b, get_prop Sample.joined_guild "id" = Some a ∧
         get_prop Sample.invite_res "id" = Some b ∧ strict_eq a b = true.
Proof.
  apply (resolved_guild_matches (VStr "abc") [Foreign 0] 0 Sample.fresh_call
           [Elapse 5] Sample.invite_res
           [GuildCreate Sample.other_guild; GuildCreate Sample.joined_guild]
           Sample.joined_guild); vm_compute; reflexivity.
Defined.

(** [call_invariant] after a match and the late timer. *)
Lemma call_invariant_witness :
  let w := run [Respond Sample.invite_res; GuildCreate Sample.joined_guild;
                Elapse 120000] Sample.fresh_call in
  issued w = VStr "abc" ∧ (length (timers w) ≤ 1)%nat ∧ (removals w ≤ 2)%nat.
Proof.
  cbv zeta.
  destruct (call_invariant (VStr "abc") [Foreign 0] 0 Sample.fresh_call
              [Respond Sample.invite_res; GuildCreate Sample.joined_guild;
               Elapse 120000] eq_refl eq_refl) as (Hi & Ht & Hr & _).
  split; [exact Hi|]. split; [exact Ht | exact Hr].
Defined.

(** [acceptInvite_argument] on an object whose [id] is empty. *)
Lemma acceptInvite_argument_witness :
  let code := VObj {[ "id" := VStr ""; "code" := VStr "abc" ]} in
  issued <$> acceptInvite code [] 0 = Some code.
Proof.
  cbv zeta.
  destruct (acceptInvite_argument
              (VObj {[ "id" := VStr ""; "code" := VStr "abc" ]}) [] 0) as (_ & _ & H).
  rewrite (H (VStr "")) by (vm_compute; reflexivity). reflexivity.
Defined.

End CorrelatedRequestLaws.

(** ** Further laws of the READY packet handler *)

Module ReadinessGateLaws.
Import JS.
Import ClientUser.
Import Ready.
Import ReadinessGate.

Section Laws.

Context {Base Settings : Type}.
Variable User_patch : obj -> Base -> Base.
Variable User_new : value -> value -> option (t Base Settings * value).
Variable ClientUserSettings_new : value -> Settings.
Variable User_id : Base -> value.

Implicit Types (c : client Base Settings) (data : obj).

Abbreviation ready_user :=
  (ready_user User_patch User_new ClientUserSettings_new User_id).
Abbreviation READY := (READY User_patch User_new ClientUserSettings_new User_id).

Lemma set_calls_app l1 l2 c :
  set_calls (calls (set_calls (calls c ++ l1) c) ++ l2) (set_calls (calls c ++ l1) c)
  = set_calls (calls c ++ l1 ++ l2) c.
Proof. unfold set_calls. simpl. by rewrite app_assoc. Qed.

(** What the user branch can change. *)
Lemma ready_user_frame data c :
  let c1 := state_of (ready_user data c) in
  calls c1 = calls c ∧ emitted c1 = emitted c ∧
  (∀ r' u, heap c !! r' = Some u → user c ≠ Some r' → heap c1 !! r' = Some u) ∧
  (∀ r, user c = Some r → user c1 = Some r ∧ users_cache c1 = users_cache c).
Proof.
  cbv zeta. unfold Ready.ready_user.
  destruct (user c) as [r|] eqn:Hr.
  - unfold patch_at. destruct (heap c !! r) as [u0|] eqn:Hu; simpl.
    + destruct (_patch User_patch data (u0, token c)) as [u' tok']. simpl.
      split; [done|]. split; [done|]. split.
      * intros r' u Hr' Hne. rewrite lookup_insert_ne; [done | congruence].
      * by intros ? [= <-].
    + split; [done|]. split; [done|]. split; [done|]. by intros ? [= <-].
  - destruct (new User_new ClientUserSettings_new data (token c)) as [[cu tok]|]; simpl.
    + split; [done|]. split; [done|]. split; [|done].
      intros r' u Hr' _. rewrite lookup_insert_ne; [done|].
      intros <-. apply (is_fresh (dom (heap c))). apply elem_of_dom. eauto.
    + done.
Qed.

(** The first loop stops at the first guild that cannot be tagged. *)
Lemma add_guilds_stops sid good bad rest c :
  Forall (λ g, is_Some (set_prop g "shardID" sid)) good →
  set_prop bad "shardID" sid = None →
  add_guilds sid (good ++ bad :: rest) c
  = Throw (set_calls (calls c ++ (GuildsAdd ∘ tagged sid <$> good)) c).
Proof.
  intros H Hbad. revert c. induction H as [|g gs [g' Hg] _ IH]; intros c; simpl.
  - unfold add_guild. rewrite Hbad. by rewrite set_calls_id.
  - unfold add_guild at 1, tagged at 1. rewrite Hg. simpl. rewrite IH.
    unfold log, set_calls. simpl. by rewrite <- app_assoc.
Qed.

Lemma add_guilds_state sid gs c :
  ∃ l, state_of (add_guilds sid gs c) = set_calls (calls c ++ l) c.
Proof.
  revert c. induction gs as [|g gs IH]; intros c; simpl.
  - exists []. by rewrite set_calls_id.
  - unfold add_guild. destruct (set_prop g "shardID" sid) as [g'|].
    + destruct (IH (log (GuildsAdd g') c)) as [l Hl]. exists (GuildsAdd g' :: l).
      rewrite Hl. unfold log, set_calls. simpl. by rewrite <- app_assoc.
    + exists []. simpl. by rewrite set_calls_id.
Qed.

(** Past the user branch the handler only appends to the call log. *)
Lemma READY_state data sid c :
  ∃ l, state_of (READY data sid c)
       = set_calls (calls (state_of (ready_user data c)) ++ l)
                   (state_of (ready_user data c)).
Proof.
  unfold Ready.READY.
  destruct (ready_user data c) as [[] c1|c1]; simpl;
    [|exists []; by rewrite set_calls_id].
  destruct (iterate (field "guilds" data)) as [gs|]; simpl;
    [|exists []; by rewrite set_calls_id].
  destruct (add_guilds_state sid gs c1) as [l Hl].
  destruct (add_guilds sid gs c1) as [[] c2|c2]; simpl in *; subst c2.
  - destruct (iterate (field "private_channels" data)) as [cs|]; simpl.
    + exists (l ++ (ChannelsAdd <$> cs) ++ [CheckReady sid]).
      rewrite add_channels_calls. unfold log.
      rewrite !set_calls_app. reflexivity.
    + by exists l.
  - by exists l.
Qed.

(** X8.  A payload whose [guilds] cannot be iterated makes the handler throw
    after the user branch has run: the user is patched or created, but no
    guild and no channel is added and [checkReady] is not called. *)
Theorem READY_without_guilds data sid c :
  iterate (field "guilds" data) = None →
  READY data sid c = Throw (state_of (ready_user data c)) ∧
  calls (state_of (READY data sid c)) = calls c.
Proof.
  intros Hg.
  assert (E : READY data sid c = Throw (state_of (ready_user data c))).
  { unfold Ready.READY. destruct (ready_user data c) as [[] c1|c1]; simpl; [|done].
    by rewrite Hg. }
  split; [exact E|]. rewrite E. simpl. apply ready_user_frame.
Qed.

(** X9.  When a guild of the payload is a primitive, the handler throws at
    that guild: the guilds before it have been added, tagged, and nothing
    else happens, neither the later guilds, nor the private channels, nor
    [checkReady]. *)
Theorem READY_stops_at_bad_guild data sid c c1 good bad rest gp :
  ready_user data c = Normal tt c1 →
  field "guilds" data = VArr (good ++ bad :: rest) gp →
  Forall (λ g, is_Some (set_prop g "shardID" sid)) good →
  set_prop bad "shardID" sid = None →
  READY data sid c = Throw (set_calls (calls c ++ (GuildsAdd ∘ tagged sid <$> good)) c1).
Proof.
  intros Hu Hg Hgood Hbad. unfold Ready.READY. rewrite Hu, Hg. simpl.
  rewrite (add_guilds_stops sid good bad rest c1 Hgood Hbad).
  pose proof (ready_user_frame data c) as (Hc & _). rewrite Hu in Hc. simpl in Hc.
  by rewrite Hc.
Qed.

(** X10.  Whatever the payload, and whether the handler completes or throws:
    it emits no event, it only appends to the calls already made, it leaves
    every object other than [client.user] as it was, and when a client user
    exists it stays [client.user] and the user cache is not touched. *)
Theorem READY_frame data sid c :
  let c' := state_of (READY data sid c) in
  emitted c' = emitted c ∧
  calls c `prefix_of` calls c' ∧
  (∀ r' u, heap c !! r' = Some u → user c ≠ Some r' → heap c' !! r' = Some u) ∧
  (∀ r, user c = Some r → user c' = Some r ∧ users_cache c' = users_cache c).
Proof.
  cbv zeta. destruct (READY_state data sid c) as [l ->].
  destruct (ready_user_frame data c) as (Hc & He & Hh & Hu). simpl.
  split; [done|]. split; [|split; [done|]].
  - rewrite Hc. by apply prefix_app_r.
  - intros r Hr. by apply Hu.
Qed.

(** X11.  Two deliveries.  After a first packet built the client user, a
    second packet patches that same object: [client.user] keeps its address,
    the cache still holds that address under the user's id, the object behind
    it carries the second payload, and the collaborators were called for the
    first packet and then for the second, [checkReady] closing each. *)
Theorem READY_twice data1 data2 sid c cu tok gs1 gp1 cs1 cp1 gs2 gp2 cs2 cp2 :
  user c = None →
  new User_new ClientUserSettings_new data1 (token c) = Some (cu, tok) →
  field "guilds" data1 = VArr gs1 gp1 →
  field "private_channels" data1 = VArr cs1 cp1 →
  Forall (λ g, is_Some (set_prop g "shardID" sid)) gs1 →
  field "guilds" data2 = VArr gs2 gp2 →
  field "private_channels" data2 = VArr cs2 cp2 →
  Forall (λ g, is_Some (set_prop g "shardID" sid)) gs2 →
  ∃ c1 c2 r,
    READY data1 sid c = Normal tt c1 ∧ READY data2 sid c1 = Normal tt c2 ∧
    user c1 = Some r ∧ user c2 = Some r ∧
    users_cache c2 = users_cache c1 ∧
    (User_id (base cu), r) ∈ users_cache c2 ∧
    heap c2 !! r = Some (_patch User_patch data2 (cu, tok)).1 ∧
    token c2 = (_patch User_patch data2 (cu, tok)).2 ∧
    calls c2 = calls c ++ ready_calls sid gs1 cs1 ++ ready_calls sid gs2 cs2.
Proof.
  intros Hnone Hnew Hg1 Hc1 Ho1 Hg2 Hc2 Ho2.
  set (r := fresh (dom (heap c))).
  set (c0 := set_users_cache (Map_set (User_id (base cu)) r (users_cache c))
               (set_user (Some r) (set_token tok (set_heap (<[r := cu]> (heap c)) c)))).
  assert (Hu1 : ready_user data1 c = Normal tt c0).
  { unfold Ready.ready_user. by rewrite Hnone, Hnew. }
  pose proof (READY_after_user User_patch User_new ClientUserSettings_new User_id
                data1 sid c c0 gs1 gp1 cs1 cp1 Hg1 Hc1 Ho1 Hu1) as HR1.
  set (c1 := set_calls (calls c0 ++ ready_calls sid gs1 cs1) c0) in *.
  assert (Hh1 : heap c1 !! r = Some cu) by apply lookup_insert_eq.
  assert (Hu2 : ready_user data2 c1
                = Normal tt (set_token (_patch User_patch data2 (cu, token c1)).2
                    (set_heap (<[r := (_patch User_patch data2 (cu, token c1)).1]> (heap c1))
                       c1))).
  { unfold Ready.ready_user. change (user c1) with (Some r).
    by apply patch_at_Some. }
  pose proof (READY_after_user User_patch User_new ClientUserSettings_new User_id
                data2 sid c1 _ gs2 gp2 cs2 cp2 Hg2 Hc2 Ho2 Hu2) as HR2.
  eexists c1, _, r. split; [exact HR1|]. split; [exact HR2|].
  simpl. repeat split.
  - apply Map_set_elem.
  - apply lookup_insert_eq.
  - by rewrite <- app_assoc.
Qed.

End Laws.

(** [READY_without_guilds] on a payload that only carries a new e-mail: the
    user is patched although the handler throws. *)
Lemma READY_without_guilds_witness :
  let data : obj := {[ "email" := VStr "new@b.c" ]} in
  let c' := state_of (READY Sample.User_patch Sample.User_new
                        Sample.ClientUserSettings_new Sample.User_id
                        data (VNum 0) Sample.logged_in) in
  calls c' = [] ∧ email <$> heap c' !! 0 = Some (VStr "new@b.c").
Proof.
  cbv zeta.
  destruct (READY_without_guilds Sample.User_patch Sample.User_new
              Sample.ClientUserSettings_new Sample.User_id
              {[ "email" := VStr "new@b.c" ]} (VNum 0) Sample.logged_in)
    as (E & Hcalls); [vm_compute; reflexivity|].
  split; [exact Hcalls|]. rewrite E. vm_compute. reflexivity.
Defined.

(** [READY_stops_at_bad_guild] on a payload whose second guild is a string. *)
Lemma READY_stops_at_bad_guild_witness :
  let data : obj := {[ "guilds" := VArr [Sample.joined_guild; VStr "x"; Sample.other_guild] ∅;
                       "private_channels" := VArr [] ∅ ]} in
  calls (state_of (READY Sample.User_patch Sample.User_new
                     Sample.ClientUserSettings_new Sample.User_id
                     data (VNum 0) Sample.logged_in))
  = [GuildsAdd (tagged (VNum 0) Sample.joined_guild)].
Proof.
  cbv zeta.
  rewrite (READY_stops_at_bad_guild Sample.User_patch Sample.User_new
             Sample.ClientUserSettings_new Sample.User_id
             {[ "guilds" := VArr [Sample.joined_guild; VStr "x"; Sample.other_guild] ∅;
                "private_channels" := VArr [] ∅ ]}
             (VNum 0) Sample.logged_in
             (state_of (ready_user Sample.User_patch Sample.User_new
                          Sample.ClientUserSettings_new Sample.User_id
                          {[ "guilds" := VArr [Sample.joined_guild; VStr "x";
                                               Sample.other_guild] ∅;
                             "private_channels" := VArr [] ∅ ]} Sample.logged_in))
             [Sample.joined_guild] (VStr "x") [Sample.other_guild] ∅).
  - reflexivity.
  - vm_compute. reflexivity.
  - vm_compute. reflexivity.
  - repeat constructor. eexists. reflexivity.
  - reflexivity.
Defined.

(** [READY_twice]: the same packet delivered twice to a fresh client. *)
Lemma READY_twice_witness :
  let READY := READY Sample.User_patch Sample.User_new Sample.ClientUserSettings_new
                 Sample.User_id in
  let guilds := [Sample.joined_guild; Sample.other_guild] in
  let channels := [VObj {[ "id" := VStr "7" ]}] in
  ∃ c1 c2 r,
    READY Sample.ready_packet (VNum 3) Sample.empty_client = Normal tt c1 ∧
    READY Sample.ready_packet (VNum 3) c1 = Normal tt c2 ∧
    user c2 = Some r ∧ (VStr "42", r) ∈ users_cache c2 ∧
    calls c2 = ready_calls (VNum 3) guilds channels ++ ready_calls (VNum 3) guilds channels.
Proof.
  cbv zeta.
  assert (Hobj : Forall (λ g, is_Some (set_prop g "shardID" (VNum 3)))
                   [Sample.joined_guild; Sample.other_guild]).
  { repeat constructor; eexists; reflexivity. }
  destruct (READY_twice Sample.User_patch Sample.User_new
              Sample.ClientUserSettings_new Sample.User_id
              Sample.ready_packet Sample.ready_packet (VNum 3) Sample.empty_client
              Sample.first_user VUndef
              [Sample.joined_guild; Sample.other_guild] ∅ [VObj {[ "id" := VStr "7" ]}] ∅
              [Sample.joined_guild; Sample.other_guild] ∅ [VObj {[ "id" := VStr "7" ]}] ∅)
    as (c1 & c2 & r & H1 & H2 & _ & Hu & _ & Hin & _ & _ & Hcalls);
    try (vm_compute; reflexivity); try exact Hobj.
  exists c1, c2, r. repeat split; assumption.
Defined.

End ReadinessGateLaws.

(** ** Further laws of [UserSettingsUpdateAction.handle] *)

Module ActionDispatcherLaws.
Import JS.
Import ClientUser.
Import UserSettingsUpdateAction.

Section Laws.

Context {Base Settings : Type}.
Variable USER_SETTINGS_UPDATE : string.

Implicit Types (c : client Base Settings) (events : list value).

Lemma handle_all_cons settings rest c :
  handle_all USER_SETTINGS_UPDATE (settings :: rest) c
  = ((handle USER_SETTINGS_UPDATE settings c).1
       :: (handle_all USER_SETTINGS_UPDATE rest (handle USER_SETTINGS_UPDATE settings c).2).1,
     (handle_all USER_SETTINGS_UPDATE rest (handle USER_SETTINGS_UPDATE settings c).2).2).
Proof.
  simpl. by destruct (handle_all USER_SETTINGS_UPDATE rest _).
Qed.

(** X12.  Handling any sequence of settings updates changes nothing of the
    client but the list of emitted events, which keeps what was emitted
    before; and each result gives the payload back under [settings]. *)
Theorem handle_all_frame events c :
  let rs := (handle_all USER_SETTINGS_UPDATE events c).1 in
  let c' := (handle_all USER_SETTINGS_UPDATE events c).2 in
  user c' = user c ∧ heap c' = heap c ∧ token c' = token c ∧
  users_cache c' = users_cache c ∧ calls c' = calls c ∧
  emitted c `prefix_of` emitted c' ∧
  Forall2 (λ r settings, get_prop r "settings" = Some settings) rs events.
Proof.
  cbv zeta. revert c. induction events as [|settings rest IH]; intros c.
  - simpl. repeat split; done.
  - rewrite handle_all_cons. cbn [fst snd].
    destruct (IH (handle USER_SETTINGS_UPDATE settings c).2)
      as (Hu & Hh & Ht & Hc & Hl & He & Hr).
    rewrite Hu, Hh, Ht, Hc, Hl. repeat split; try done.
    + etrans; [|exact He]. simpl. by apply prefix_app_r.
    + constructor; [|exact Hr]. simpl. unfold field. by rewrite lookup_singleton_eq.
Qed.


End Laws.

End ActionDispatcherLaws.

(** ** Further laws of [ClientUser.edit] *)

Module CredentialLaws.
Import JS.
Import ClientUser.

Section Laws.

Context {Base Settings : Type}.
Variable UserUpdate_handle :
  value -> client Base Settings -> completion Base Settings (option nat).

Implicit Types (c : client Base Settings).

(** X13.  [edit] fails in exactly two ways.  When the request fails or
    answers [null] or [undefined], the client is left as it was, credential
    included.  When [UserUpdate.handle] throws, the client is left as that
    call left it, and the call was made on a client whose credential had
    already been overwritten with [newData.token].  When [edit] succeeds, it
    returns the object [UserUpdate.handle] reported as updated, or else the
    receiver. *)
Theorem edit_failure_and_result this response c :
  ((∃ err, response = inr err) ∨ response = inl VNull ∨ response = inl VUndef →
     edit UserUpdate_handle this response c = Throw c) ∧
  (∀ newData tok c2, response = inl newData → get_prop newData "token" = Some tok →
     UserUpdate_handle newData (set_token tok c) = Throw c2 →
     edit UserUpdate_handle this response c = Throw c2) ∧
  (∀ c', edit UserUpdate_handle this response c = Throw c' →
     (c' = c ∧
      ((∃ err, response = inr err) ∨ response = inl VNull ∨ response = inl VUndef)) ∨
     (∃ newData tok, response = inl newData ∧ get_prop newData "token" = Some tok ∧
        UserUpdate_handle newData (set_token tok c) = Throw c')) ∧
  (∀ r c', edit UserUpdate_handle this response c = Normal r c' →
     ∃ newData tok updated, response = inl newData ∧
       get_prop newData "token" = Some tok ∧
       UserUpdate_handle newData (set_token tok c) = Normal updated c' ∧
       r = default this updated).
Proof.
  split; [|split; [|split]].
  - by intros [[err ->] | [-> | ->]].
  - intros newData tok c2 -> Htok Hh. simpl. unfold edit_then. by rewrite Htok, Hh.
  - intros c' H. destruct response as [newData|err]; simpl in H.
    + unfold edit_then in H.
      destruct (get_prop newData "token") as [tok|] eqn:E.
      * right. exists newData, tok. split; [done|]. split; [done|].
        destruct (UserUpdate_handle newData (set_token tok c)) as [[r|] c2|c2];
          try discriminate. by injection H as <-.
      * left. injection H as <-. split; [done|]. right.
        destruct newData; try discriminate; auto.
    + left. injection H as <-. eauto.
  - intros r c' H. destruct response as [newData|err]; [|discriminate].
    simpl in H. unfold edit_then in H.
    destruct (get_prop newData "token") as [tok|] eqn:E; [|discriminate].
    exists newData, tok.
    destruct (UserUpdate_handle newData (set_token tok c)) as [[r'|] c2|c2];
      try discriminate; injection H as <- <-; by eexists.
Qed.

End Laws.

(** [edit_failure_and_result] on an empty answer, and on an answer with a new
    token given to a client that has no user to update: the promise is
    rejected and the credential is the new one. *)
Lemma edit_failure_and_result_witness :
  let stale := set_token (VStr "old") Sample.empty_client in
  edit Sample.UserUpdate_handle 0 (inl VNull) Sample.logged_in = Throw Sample.logged_in ∧
  edit Sample.UserUpdate_handle 0 (inl (VObj {[ "token" := VStr "new" ]})) stale
  = Throw (set_token (VStr "new") stale) ∧
  token (set_token (VStr "new") stale) = VStr "new".
Proof.
  cbv zeta. split; [|split; [|reflexivity]].
  - apply (edit_failure_and_result Sample.UserUpdate_handle 0 (inl VNull) Sample.logged_in).
    right. left. reflexivity.
  - apply (edit_failure_and_result Sample.UserUpdate_handle 0
             (inl (VObj {[ "token" := VStr "new" ]}))
             (set_token (VStr "old") Sample.empty_client))
      with (newData := VObj {[ "token" := VStr "new" ]}) (tok := VStr "new");
      [reflexivity | vm_compute; reflexivity | reflexivity].
Defined.

End CredentialLaws.

(** ** Presence and settings methods of [ClientUser] *)

Module PresenceLaws.
Import JS.
Import ClientUser.
Import ClientUserMethods.

Lemma assign_lookup a b k :
  assign a b !! k
  = match own_enumerable b !! k with
    | Some v => Some v
    | None => own_enumerable a !! k
    end.
Proof.
  unfold assign. destruct (own_enumerable b !! k) as [v|] eqn:E.
  - by apply lookup_union_Some_l.
  - by rewrite lookup_union_r.
Qed.


(** X14.  [setActivity] without a name (any falsy first argument) clears the
    activity and passes [options.shardID] on: [undefined] when the options
    are omitted, and the call throws when the options are [null]. *)
Theorem setActivity_without_name name options :
  truthy name = false →
  (options = VNull → setActivity name options = None) ∧
  (options = VUndef →
   setActivity name options
   = Some (VObj {[ "activity" := VNull; "shardID" := VUndef ]})) ∧
  (∀ shardID, get_prop options "shardID" = Some shardID →
   setActivity name options
   = Some (VObj {[ "activity" := VNull; "shardID" := shardID ]})).
Proof.
  intros Hn. unfold setActivity. rewrite Hn. simpl. split; [|split].
  - by intros ->.
  - by intros ->.
  - intros sh Hsh. destruct options; try done; by rewrite Hsh.
Qed.

(** X15.  [setActivity] with a name never throws.  The activity it sets has
    every property of the name object, or the single property [name] when the
    name is not an object; the properties of the options show through where
    the name does not define them; [shardID] is read from that merged
    activity.  With a string name and an options object, the activity is the
    options with [name] set. *)
Theorem setActivity_with_name name options :
  truthy name = true →
  let options' := match options with VUndef => VObj ∅ | _ => options end in
  let source := if String.eqb (typeof name) "object" then name
                else VObj {[ "name" := name ]} in
  ∃ activity,
    setActivity name options
    = Some (VObj {[ "activity" := VObj activity;
                    "shardID" := field "shardID" activity ]}) ∧
    (∀ k, activity !! k = match own_enumerable source !! k with
                          | Some v => Some v
                          | None => own_enumerable options' !! k
                          end) ∧
    (String.eqb (typeof name) "object" = false →
     activity = <[ "name" := name ]> (own_enumerable options') ∧
     field "shardID" activity = field "shardID" (own_enumerable options')).
Proof.
  intros Hn. cbv zeta. unfold setActivity. rewrite Hn. simpl.
  eexists. split; [reflexivity|]. split.
  - intros k. apply assign_lookup.
  - intros Hty. rewrite Hty. unfold assign. simpl.
    split; [by rewrite insert_union_singleton_l|].
    unfold field. by rewrite lookup_union_r.
Qed.


Section Settings.

Context {Base Settings : Type}.
Variable User_new : value -> value -> option (t Base Settings * value).
Variable ClientUserSettings_new : value -> Settings.
Variable Settings_patch : value -> Settings -> Settings.
Variable Settings_customStatus : Settings -> value.

Implicit Types (this : t Base Settings).

(** X17.  [setCustomStatus]: a rejected promise leaves the object as it was;
    on an object without settings the promise is always rejected, and when
    the presence call went through, the presence has been set by then; a
    fulfilled promise carries the answer of [settings.update], after the
    three calls were made in order and the settings were patched with that
    answer. *)
Theorem setCustomStatus_outcomes this data presence_set settings_update :
  let r := setCustomStatus Settings_patch this data presence_set settings_update in
  (∀ why, r.1.1 = inr why → r.1.2 = this) ∧
  (settings this = None → ∃ why, r.1.1 = inr why) ∧
  (∀ p ok, settings this = None → custom_status_presence data = Some p →
     presence_set = inl ok → r = (inr TypeError, this, [PresenceSet p])) ∧
  (∀ newSettings, r.1.1 = inl newSettings →
     settings_update = inl newSettings ∧
     ∃ p s, custom_status_presence data = Some p ∧ settings this = Some s ∧
       settings r.1.2 = Some (Settings_patch newSettings s) ∧
       r.2 = [PresenceSet p; SettingsUpdate "custom_status" data;
              SettingsPatch newSettings]).
Proof.
  cbv zeta. unfold setCustomStatus.
  destruct (custom_status_presence data) as [p|];
    [|repeat split; (done || eauto)].
  destruct presence_set as [ok|err]; [|repeat split; (done || eauto)].
  destruct (settings this) as [s|] eqn:Hs.
  - destruct settings_update as [ns|err]; simpl.
    + split; [done|]. split; [done|]. split; [done|].
      intros ? [= <-]. split; [done|]. by exists p, s.
    + split; [done|]. split; [done|]. split; done.
  - simpl. split; [done|]. split; [eauto|]. split; [|done].
    by intros ? ? _ [= <-] _.
Qed.

(** X18.  The constructor: [_typing] starts empty; the inherited part, the
    own properties and the credential are those the superclass constructor
    left, and the constructor throws exactly when that one does; without a
    truthy [user_settings] the settings are [null] and reading [customStatus]
    throws, with one it returns the custom status of the new settings. *)
Theorem new_settings data token :
  (new User_new ClientUserSettings_new data token = None
   ↔ User_new (field "user" data) token = None) ∧
  (∀ u token', new User_new ClientUserSettings_new data token = Some (u, token') →
     _typing u = ∅ ∧
     (∃ u0, User_new (field "user" data) token = Some (u0, token') ∧
            base u = base u0 ∧ own u = own u0) ∧
     (truthy (field "user_settings" data) = false →
      settings u = None ∧ customStatus Settings_customStatus u = None) ∧
     (truthy (field "user_settings" data) = true →
      customStatus Settings_customStatus u
      = Some (Settings_customStatus
                (ClientUserSettings_new (field "user_settings" data))))).
Proof.
  unfold new. destruct (User_new (field "user" data) token) as [[u0 tok0]|].
  - split; [done|]. intros u token' [= <- <-]. split; [done|]. split; [eauto|].
    unfold customStatus. simpl. split; by intros ->.
  - split; [done|]. discriminate.
Qed.

End Settings.

(** [setActivity_without_name] with a shard chosen in the options. *)
Lemma setActivity_without_name_witness :
  setActivity (VStr "") (VObj {[ "shardID" := VNum 2 ]})
  = Some (VObj {[ "activity" := VNull; "shardID" := VNum 2 ]}).
Proof.
  apply (setActivity_without_name (VStr "") (VObj {[ "shardID" := VNum 2 ]}));
    [reflexivity | vm_compute; reflexivity].
Defined.

(** [setActivity_with_name] with a string name and typed options. *)
Lemma setActivity_with_name_witness :
  ∃ activity,
    setActivity (VStr "discord.js") (VObj {[ "type" := VStr "WATCHING" ]})
    = Some (VObj {[ "activity" := VObj activity;
                    "shardID" := field "shardID" activity ]}) ∧
    activity = {[ "name" := VStr "discord.js"; "type" := VStr "WATCHING" ]}.
Proof.
  destruct (setActivity_with_name (VStr "discord.js")
              (VObj {[ "type" := VStr "WATCHING" ]}) eq_refl)
    as (activity & E & _ & H).
  exists activity. split; [exact E|]. by destruct (H eq_refl) as [-> _].
Defined.


(** [setCustomStatus_outcomes] on a bot account: the presence is set, the
    promise is rejected. *)
Lemma setCustomStatus_outcomes_witness :
  ∃ p, setCustomStatus SampleSettings.Settings_patch SampleSettings.bot
         (VObj {[ "text" := VStr "Happy" ]}) (inl VUndef) (inl VNull)
       = (inr TypeError, SampleSettings.bot, [PresenceSet p]).
Proof.
  destruct (custom_status_presence (VObj {[ "text" := VStr "Happy" ]})) as [p|] eqn:E;
    [|vm_compute in E; discriminate E].
  exists p.
  by apply (setCustomStatus_outcomes SampleSettings.Settings_patch SampleSettings.bot
              (VObj {[ "text" := VStr "Happy" ]}) (inl VUndef) (inl VNull)) with VUndef.
Defined.

(** [new_settings] on a payload without [user_settings]. *)
Lemma new_settings_witness :
  ∃ u, new SampleSettings.User_new SampleSettings.Settings_new
         {[ "user" := VObj {[ "id" := VStr "42" ]} ]} VUndef = Some (u, VUndef) ∧
       customStatus SampleSettings.Settings_customStatus u = None.
Proof.
  destruct (new SampleSettings.User_new SampleSettings.Settings_new
              {[ "user" := VObj {[ "id" := VStr "42" ]} ]} VUndef)
    as [[u tok]|] eqn:E; [|vm_compute in E; discriminate E].
  assert (tok = VUndef) as -> by (vm_compute in E; by injection E).
  exists u. split; [reflexivity|].
  destruct (new_settings SampleSettings.User_new SampleSettings.Settings_new
              SampleSettings.Settings_customStatus
              {[ "user" := VObj {[ "id" := VStr "42" ]} ]} VUndef) as (_ & H).
  destruct (H u VUndef E) as (_ & _ & Hnone & _). by apply Hnone.
Defined.

End PresenceLaws.
